(** * Neural Analogy: the patch-matching core of [analogy.py]

    A shallow embedding of the correspondence search of [analogy.py]
    ([Model.patches_score], [Model.patches_initialize],
    [Model.patches_propagate], [Model.patches_search], the patch
    normalisation of [Buffer.__init__], and the refinement loop and merge step
    of [NeuralAnalogy]), with the properties of its specification.

    Conventions of the embedding:
    - a [float32] is an IEEE 754 binary32 value ([spec_float] at precision 24,
      [emax] 128); NumPy and Torch arithmetic on [float32] data is the
      correctly rounded operation of [SpecFloat];
    - a NumPy array or Torch tensor with two spatial axes is an [ndarray]:
      its [shape] and its rows; indexing follows Python (a negative index
      counts from the end, anything else out of range raises [IndexError]);
    - [torch.sum] and [np.sum] are the reductions of the class
      [Reductions], whose order of accumulation is not fixed here;
    - a raised exception is [None];
    - [np.random.randint] reads an explicit entropy source. *)

From Stdlib Require Import ZArith Lia Bool List.
From Stdlib Require Import Floats.SpecFloat.
From stdpp Require Import base numbers option list.

Open Scope Z_scope.

(** ** binary32 arithmetic *)

Module F32.

Definition prec : Z := 24.
Definition emax : Z := 128.

Definition float32 : Type := spec_float.

Definition zero : float32 := S754_zero false.
Definition nan : float32 := S754_nan.
(** [0.5] and [1.0] as binary32 values. *)
Definition half : float32 := S754_finite false 8388608 (-24).
Definition one : float32 := S754_finite false 8388608 (-23).

Definition add (a b : float32) : float32 := SFadd prec emax a b.
Definition sub (a b : float32) : float32 := SFsub prec emax a b.
Definition mul (a b : float32) : float32 := SFmul prec emax a b.
Definition div (a b : float32) : float32 := SFdiv prec emax a b.
Definition sqrt (a : float32) : float32 := SFsqrt prec emax a.

(** [a < b] and [a > b] as Python evaluates them: false on NaN. *)
Definition ltb (a b : float32) : bool := SFltb a b.
Definition gtb (a b : float32) : bool := SFltb b a.

Definition is_zero (a : float32) : bool :=
  match a with S754_zero _ => true | _ => false end.
Definition is_nan (a : float32) : bool :=
  match a with S754_nan => true | _ => false end.
Definition is_inf (a : float32) : bool :=
  match a with S754_infinity _ => true | _ => false end.
(** Neither NaN nor an infinity: [np.isfinite]. *)
Definition is_finite (a : float32) : bool :=
  match a with S754_zero _ | S754_finite _ _ _ => true | _ => false end.

(** The integer [n] as a binary32 value (exact for small [n]). *)
Definition of_Z (n : Z) : float32 := binary_normalize prec emax n 0 false.

End F32.

Abbreviation float32 := F32.float32.

(** ** Arrays *)

(** Python's normalisation of an index [i] into a sequence of length [n]. *)
Definition py_index (n : nat) (i : Z) : option nat :=
  if (0 <=? i) && (i <? Z.of_nat n) then Some (Z.to_nat i)
  else if (- Z.of_nat n <=? i) && (i <? 0) then Some (Z.to_nat (i + Z.of_nat n))
  else None.

(** [range(n)] and [range(n-1, -1, -1)]. *)
Definition py_range (n : nat) : list Z := seqZ 0 (Z.of_nat n).
Definition py_range_down (n : nat) : list Z :=
  (fun k => Z.of_nat n - 1 + k * (-1)) <$> seqZ 0 (Z.of_nat n).

(** A two-dimensional array: [a.shape[0]], [a.shape[1]] and the rows. *)
Record ndarray (A : Type) : Type := NdArray {
  shape0 : nat;
  shape1 : nat;
  rows : list (list A)
}.
Arguments NdArray {A} _ _ _.
Arguments shape0 {A} _.
Arguments shape1 {A} _.
Arguments rows {A} _.

(** The rows agree with the shape. *)
Definition well_shaped {A} (a : ndarray A) : Prop :=
  length (rows a) = shape0 a ∧ Forall (fun r => length r = shape1 a) (rows a).

(** [a[y, x]] *)
Definition get2 {A} (a : ndarray A) (y x : Z) : option A :=
  j ← py_index (shape0 a) y;
  i ← py_index (shape1 a) x;
  r ← rows a !! j;
  r !! i.

(** [a[y, x] = v] *)
Definition set2 {A} (a : ndarray A) (y x : Z) (v : A) : option (ndarray A) :=
  j ← py_index (shape0 a) y;
  i ← py_index (shape1 a) x;
  r ← rows a !! j;
  _ ← r !! i;
  Some (NdArray (shape0 a) (shape1 a) (<[j := <[i := v]> r]> (rows a))).

(** An array given cell by cell. *)
Definition tabulate2 {A} (h w : nat) (f : Z → Z → A) : ndarray A :=
  NdArray h w ((fun y => f y <$> py_range w) <$> py_range h).

(** A [for] loop whose body may raise. *)
Fixpoint for_each {S A} (l : list A) (body : A → S → option S) (s : S) : option S :=
  match l with
  | [] => Some s
  | a :: l' => s' ← body a s; for_each l' body s'
  end.

(** An elementwise operation on an array. *)
Definition map_cells {A B} (f : A → B) (a : ndarray A) : ndarray B :=
  NdArray (shape0 a) (shape1 a) (List.map (List.map f) (rows a)).

(** An array given cell by cell, where computing a cell may raise. *)
Definition tabulate2M {A} (h w : nat) (f : Z → Z → option A) : option (ndarray A) :=
  rs ← mapM (fun y => mapM (f y) (py_range w)) (py_range h);
  Some (NdArray h w rs).

(** A feature tensor of shape [(1, C, H, W)]: one [H] by [W] array per channel,
    with [size2 = H] and [size3 = W]. *)
Record features : Type := Features {
  channels : list (ndarray float32);
  size2 : nat;
  size3 : nat
}.

(** ** Buffer: one pyramid level of one image *)

Record Buffer : Type := MkBuffer {
  features_orign : features;
  patches_orign : ndarray (list float32);
  patches_repro : ndarray (list float32);
  weights : ndarray float32;
  weight : float32;
  radius : Z;
  padding : Z;
  indices : ndarray (Z * Z);
  scores : ndarray float32
}.

Definition with_scores (b : Buffer) (s : ndarray float32) : Buffer :=
  MkBuffer (features_orign b) (patches_orign b) (patches_repro b) (weights b)
           (weight b) (radius b) (padding b) (indices b) s.

Definition with_indices (b : Buffer) (i : ndarray (Z * Z)) : Buffer :=
  MkBuffer (features_orign b) (patches_orign b) (patches_repro b) (weights b)
           (weight b) (radius b) (padding b) i (scores b).

Definition with_patches_repro (b : Buffer) (p : ndarray (list float32)) : Buffer :=
  MkBuffer (features_orign b) (patches_orign b) p (weights b)
           (weight b) (radius b) (padding b) (indices b) (scores b).

(** ** Model *)

(** [a * b] on one-dimensional tensors: elementwise, a tensor of one element
    is broadcast, any other disagreement of sizes raises. *)
Definition tensor_mul (a b : list float32) : option (list float32) :=
  if decide (length a = length b) then Some (zip_with F32.mul a b)
  else match a, b with
       | [a0], _ => Some (F32.mul a0 <$> b)
       | _, [b0] => Some ((fun x => F32.mul x b0) <$> a)
       | _, _ => None
       end.

(** ** Reductions

    [torch.sum] of a one-dimensional tensor and [np.sum] along the last axis
    add the components of a vector in binary32, in an order that the program
    leaves to the library: Torch reduces in parallel lanes, NumPy adds in
    pairs from eight components on. The embedding takes the two reductions as
    they are, functions of the vector, and everything below holds for every
    choice of them. *)
Class Reductions : Type := {
  torch_sum : list float32 → float32;
  np_sum : list float32 → float32
}.

(** Accumulation from the left, starting from zero: the order of a plain
    loop, and of [np.sum] on fewer than eight components. *)
Definition sequential_sum (t : list float32) : float32 :=
  foldl F32.add F32.zero t.

(** The reductions that the examples are evaluated with. *)
Definition sequential_reductions : Reductions :=
  {| torch_sum := sequential_sum; np_sum := sequential_sum |}.

Section reductions.

Context {reductions : Reductions}.

(** [Model.patches_score] *)
Definition patches_score (first : Buffer) (y x : Z) (second : Buffer) (v u : Z)
    (padding : Z) : option float32 :=
  a ← get2 (patches_repro first) y x;
  b ← get2 (patches_orign second) v u;
  ab ← tensor_mul a b;
  c ← get2 (patches_orign first) y x;
  d ← get2 (patches_repro second) v u;
  cd ← tensor_mul c d;
  Some (F32.mul F32.half (F32.add (torch_sum ab) (torch_sum cd))).

(** [Model.patches_initialize] *)
Definition initialize_cell (second : Buffer) (padding : Z) (y x : Z)
    (first : Buffer) : option Buffer :=
  '(v, u) ← get2 (indices first) y x;
  s ← patches_score first y x second v u padding;
  sc ← set2 (scores first) y x s;
  Some (with_scores first sc).

Definition patches_initialize (first second : Buffer) (padding : Z) : option Buffer :=
  for_each (py_range (shape0 (indices first)))
    (fun y => for_each (py_range (shape1 (indices first)))
                (fun x => initialize_cell second padding y x))
    first.

(** A 32-bit integer result, wrapped around. *)
Definition wrap_int32 (z : Z) : Z := (z + 2 ^ 31) mod 2 ^ 32 - 2 ^ 31.

(** The greedy acceptance shared by propagation and search:
    [if score > scores[y, x]: scores[y, x] = score; indices[y, x] = [v, u]]. *)
Definition accept_if_better (first : Buffer) (y x : Z) (score : float32) (v u : Z)
    : option Buffer :=
  cur ← get2 (scores first) y x;
  if F32.gtb score cur then
    sc ← set2 (scores first) y x score;
    ix ← set2 (indices first) y x (v, u);
    Some (with_indices (with_scores first sc) ix)
  else Some first.

(** The two offsets examined by a propagation pass. *)
Definition propagate_offsets (even : bool) : list (Z * Z) :=
  [(0, if even then -1 else 1); (if even then -1 else 1, 0)].

(** The rows (or columns) in the order a propagation pass visits them. *)
Definition propagate_scan (even : bool) (n : nat) : list Z :=
  if even then py_range n else py_range_down n.

(** The cell whose index a propagation step reads for cell [(y, x)]. *)
Definition propagate_neighbour (h w : nat) (y x : Z) (offset : Z * Z) : Z * Z :=
  (Z.min (Z.of_nat h - 1) (Z.max (y + offset.1) 0),
   Z.min (Z.of_nat w - 1) (Z.max (x + offset.2) 0)).

(** The candidate match made from the index [(nv, nu)] read there. *)
Definition propagate_candidate (h w : nat) (nvu : Z * Z) (offset : Z * Z) : Z * Z :=
  let v := wrap_int32 (nvu.1 - offset.1) in
  let u := wrap_int32 (nvu.2 - offset.2) in
  (Z.min (Z.of_nat h - 1) (Z.max v 0), Z.min (Z.of_nat w - 1) (Z.max u 0)).

Definition propagate_step (second : Buffer) (padding : Z) (y x : Z)
    (offset : Z * Z) (first : Buffer) : option Buffer :=
  let h := shape0 (indices first) in
  let w := shape1 (indices first) in
  let n := propagate_neighbour h w y x offset in
  nvu ← get2 (indices first) n.1 n.2;
  let c := propagate_candidate h w nvu offset in
  score ← patches_score first y x second c.1 c.2 padding;
  accept_if_better first y x score c.1 c.2.

(** [Model.patches_propagate] *)
Definition patches_propagate (first second : Buffer) (i : Z) (padding : Z)
    : option Buffer :=
  let even := (i mod 2 =? 0) in
  for_each (propagate_scan even (shape0 (indices first)))
    (fun y => for_each (propagate_scan even (shape1 (indices first)))
                (fun x => for_each (propagate_offsets even)
                            (propagate_step second padding y x)))
    first.

(** ** Random numbers *)

(** The state of [np.random]: an entropy source and the number of draws made. *)
Record rng : Type := MkRng { entropy : nat → Z; drawn : nat }.

(** [np.random.randint(low, high)]: an integer of [[low, high)], [ValueError]
    when the interval is empty. *)
Definition randint (g : rng) (low high : Z) : option (Z * rng) :=
  if low <? high
  then Some (low + entropy g (drawn g) mod (high - low),
             MkRng (entropy g) (Datatypes.S (drawn g)))
  else None.

(** The candidate of one repeat of the search for a cell whose stored index is
    [vu], in a field of shape [h] by [w]. *)
Definition search_candidate (h w : nat) (radius : Z) (vu : option (Z * Z)) (g : rng)
    : option (Z * Z * rng) :=
  if 0 <? radius then
    '(v, u) ← vu;
    '(dv, g) ← randint g (- radius) radius;
    let v := Z.min (Z.of_nat h - 1) (Z.max (v + dv) 0) in
    '(du, g) ← randint g (- radius) radius;
    let u := Z.min (Z.of_nat w - 1) (Z.max (u + du) 0) in
    Some (v, u, g)
  else
    '(v, g) ← randint g 0 (Z.of_nat h);
    '(u, g) ← randint g 0 (Z.of_nat w);
    Some (v, u, g).

Definition search_step (second : Buffer) (radius padding : Z) (y x : Z)
    (st : Buffer * rng) : option (Buffer * rng) :=
  let first := st.1 in
  let h := shape0 (indices first) in
  let w := shape1 (indices first) in
  '(v, u, g) ← search_candidate h w radius (get2 (indices first) y x) st.2;
  score ← patches_score first y x second v u padding;
  first' ← accept_if_better first y x score v u;
  Some (first', g).

(** [Model.patches_search] *)
Definition patches_search (first second : Buffer) (times radius padding : Z)
    (g : rng) : option (Buffer * rng) :=
  for_each (py_range (shape0 (indices first)))
    (fun y => for_each (py_range (shape1 (indices first)))
                (fun x => for_each (py_range (Z.to_nat times))
                            (fun _ => search_step second radius padding y x)))
    (first, g).

(** ** Buffer construction *)

(** [np.sqrt(np.sum(d ** 2.0))] for one descriptor [d]. *)
Definition patch_norm (d : list float32) : float32 :=
  F32.sqrt (np_sum ((fun x => F32.mul x x) <$> d)).

(** One descriptor of [patches / patches_norm]. *)
Definition normalize_descriptor (d : list float32) : list float32 :=
  (fun x => F32.div x (patch_norm d)) <$> d.

(** [patches / np.sqrt(np.sum(patches ** 2.0, axis=(2,), keepdims=True))] *)
Definition normalize_patches (patches : ndarray (list float32))
    : ndarray (list float32) :=
  map_cells normalize_descriptor patches.

(** The identity coordinates written into [indices]. *)
Definition identity_indices (h w : nat) : ndarray (Z * Z) :=
  tabulate2 h w (fun y x => (y, x)).

(** [np.zeros((h, w), dtype=np.float32)] *)
Definition zero_scores (h w : nat) : ndarray float32 :=
  tabulate2 h w (fun _ _ => F32.zero).

(** [Buffer.__init__]. The per-cell blend weights (a logistic function of the
    standardised feature norms) are taken as computed: [ws]. *)
Definition Buffer_init (feats : features) (patches : ndarray (list float32))
    (ws : ndarray float32) (weight : float32) (radius padding : Z) : Buffer :=
  let normalized := normalize_patches patches in
  MkBuffer feats normalized normalized ws weight radius padding
           (identity_indices (size2 feats) (size3 feats))
           (zero_scores (size2 feats) (size3 feats)).

(** ** NeuralAnalogy *)

(** Every value of a feature tensor is finite: what [check_array], which
    [extract_patches_2d] calls on its input, insists on. *)
Definition all_finite (feature : features) : bool :=
  forallb (fun ch : ndarray float32 => forallb (forallb F32.is_finite) (rows ch))
          (channels feature).

(** [NeuralAnalogy.extract_patches]: edge padding by [p] cells, every
    [(2p+1)] by [(2p+1)] window, flattened with the channel innermost.
    [np.pad] raises on a negative padding and [extract_patches_2d] on an image
    without rows or columns, on a value that is not finite, and on an image
    without channels (its [reshape] to [(h, w, -1)] is of an empty array). *)
Definition extract_patches (feature : features) (p : Z)
    : option (ndarray (list float32)) :=
  let h := size2 feature in
  let w := size3 feature in
  if (p <? 0) || (Nat.eqb h 0) || (Nat.eqb w 0) then None
  else if negb (all_finite feature) then None
  else if Nat.eqb (length (channels feature)) 0 then None
  else
    let edge (n : nat) (i : Z) := Z.min (Z.of_nat n - 1) (Z.max (i - p) 0) in
    let window := seqZ 0 (2 * p + 1) in
    tabulate2M h w (fun y x =>
      mjoin <$> mapM (fun '(dy, dx) =>
                  mapM (fun ch => get2 ch (edge h (y + dy)) (edge w (x + dx)))
                       (channels feature))
                (list_prod window window)).

(** The number of repeats of the random search of one refinement iteration:
    [r // 2] with [r = first.radius if first.radius > 0 else 12]. *)
Definition search_times (radius : Z) : Z :=
  let r := if 0 <? radius then radius else 12 in
  r / 2.

(** What one iteration [i] of the refinement loop of
    [NeuralAnalogy.compute_flow] does to the buffers: a propagation pass when
    [i] is even, a search when it is odd. The running score of the progress
    report is left out, see [compute_flow]. *)
Definition flow_iteration (second : Buffer) (i : Z) (st : Buffer * rng)
    : option (Buffer * rng) :=
  st ← (if i mod 2 =? 0
        then first ← patches_propagate st.1 second (i / 2) (padding st.1);
             Some (first, st.2)
        else Some st);
  if i mod 2 =? 1
  then patches_search st.1 second (search_times (radius st.1)) (radius st.1)
                      (padding st.1) st.2
  else Some st.

(** The patch matching of [NeuralAnalogy.compute_flow]: the scores are
    initialised, then 32 iterations alternate propagation and search. The
    images that the function writes and its progress report leave the buffers
    alone and are not part of the embedding, nor are the errors they can
    raise (the [math.pow] of the report overflows when the running score
    comes close to zero, an image is read out of range when its size is no
    multiple of the field's). So this definition returns whenever the
    function does, with the buffers the function leaves, and raises only
    where the function does; it says nothing of whether the function returns. *)
Definition compute_flow (first second : Buffer) (g : rng) : option (Buffer * rng) :=
  first ← patches_initialize first second (padding first);
  for_each (py_range 32) (flow_iteration second) (first, g).

(** The input coordinate that [scipy.ndimage.interpolation.zoom] with
    [order=0] reads for the output coordinate [o] along an axis that it
    resizes from [n_in] to [n_out] cells: [floor(o * (n_in - 1) / (n_out - 1)
    + 0.5)]. *)
Definition zoom_source (n_in n_out : nat) (o : Z) : Z :=
  if Z.of_nat n_out - 1 =? 0 then o
  else (2 * o * (Z.of_nat n_in - 1) + (Z.of_nat n_out - 1))
       / (2 * (Z.of_nat n_out - 1)).

(** [scipy.ndimage.interpolation.zoom(a, zoom=(2, 2, 1), order=0)] *)
Definition zoom2 {A} (a : ndarray A) : option (ndarray A) :=
  let h := (2 * shape0 a)%nat in
  let w := (2 * shape1 a)%nat in
  tabulate2M h w (fun y x =>
    get2 a (zoom_source (shape0 a) h y) (zoom_source (shape1 a) w x)).

(** [parent.indices * 2] on an [int32] array. *)
Definition double_indices (a : ndarray (Z * Z)) : ndarray (Z * Z) :=
  map_cells (fun vu : Z * Z => (wrap_int32 (vu.1 * 2), wrap_int32 (vu.2 * 2))) a.

(** [features_warpd]: for every cell of [this], the feature vector of [other]
    at the upsampled index. The assignment broadcasts a vector of one channel
    and raises on any other disagreement of channel counts. *)
Definition warp_features (this : features) (other : features)
    (zoomed : ndarray (Z * Z)) : option (ndarray (list float32)) :=
  tabulate2M (size2 this) (size3 this) (fun y x =>
    '(v, u) ← get2 zoomed y x;
    vec ← mapM (fun ch => get2 ch v u) (channels other);
    if decide (length vec = length (channels this)) then Some vec
    else match vec with
         | [c] => Some (replicate (length (channels this)) c)
         | _ => None
         end).

(** [features_orign * w + (1.0 - w) * features_warpd] *)
Definition blend_features (this : features) (w : ndarray float32)
    (warpd : ndarray (list float32)) : option features :=
  chs ← mapM (fun '(c, ch) =>
            tabulate2M (size2 this) (size3 this) (fun y x =>
              f ← get2 ch y x;
              wyx ← get2 w y x;
              wv ← get2 warpd y x;
              g ← wv !! c;
              Some (F32.add (F32.mul f wyx) (F32.mul (F32.sub F32.one wyx) g))))
          (imap (fun c ch => (c, ch)) (channels this));
  Some (Features chs (size2 this) (size3 this)).

(** [NeuralAnalogy.merge_flow] *)
Definition merge_flow (this : Buffer) (parent : option Buffer) (other : Buffer)
    : option Buffer :=
  match parent with
  | None => Some this
  | Some parent =>
    let p := padding this in
    zoomed ← zoom2 (double_indices (indices parent));
    if decide (shape0 (indices this) = shape0 zoomed
               ∧ shape1 (indices this) = shape1 zoomed)
    then
      let this := with_indices this zoomed in
      warpd ← warp_features (features_orign this) (features_orign other) zoomed;
      repro ← blend_features (features_orign this) (weights this) warpd;
      patches ← extract_patches repro p;
      Some (with_patches_repro this (normalize_patches patches))
    else None
  end.

(** ** The calls that change a correspondence field *)

Inductive mutation : Type :=
  | Initialize (padding : Z)
  | Propagate (i : Z) (padding : Z)
  | Search (times radius padding : Z)
  | Merge (parent : option Buffer).

(** One call on the field of [first], matched against [second]. *)
Definition run_mutation (second : Buffer) (m : mutation) (st : Buffer * rng)
    : option (Buffer * rng) :=
  match m with
  | Initialize p => first ← patches_initialize st.1 second p; Some (first, st.2)
  | Propagate i p => first ← patches_propagate st.1 second i p; Some (first, st.2)
  | Search times radius p => patches_search st.1 second times radius p st.2
  | Merge parent => first ← merge_flow st.1 parent second; Some (first, st.2)
  end.

Definition run_mutations (second : Buffer) (ms : list mutation) (st : Buffer * rng)
    : option (Buffer * rng) :=
  for_each ms (run_mutation second) st.

(** Propagation and random search, the calls that refine a field. *)
Definition refines (m : mutation) : Prop :=
  match m with
  | Propagate _ _ | Search _ _ _ => True
  | _ => False
  end.

(** ** Notions of the specification *)

(** The products [a_i * b_i] of the components of two descriptors, each
    rounded to binary32. *)
Fixpoint products (a b : list float32) : list float32 :=
  match a, b with
  | x :: a', y :: b' => F32.mul x y :: products a' b'
  | _, _ => []
  end.

(** The dot product of two descriptors, as Torch computes it: the sum of the
    products, by the reduction of the tensor library. *)
Definition dot (a b : list float32) : float32 := torch_sum (products a b).

(** [0.5 * (dot(A.repro[y,x], B.orign[v,u]) + dot(A.orign[y,x], B.repro[v,u]))] *)
Definition score_formula (a_repro a_orign b_orign b_repro : list float32) : float32 :=
  F32.mul F32.half (F32.add (dot a_repro b_orign) (dot a_orign b_repro)).

(** Every stored index lies in [[0, h) x [0, w)]. *)
Definition indices_within (h w : nat) (a : ndarray (Z * Z)) : Prop :=
  Forall (Forall (fun vu : Z * Z =>
                    (0 ≤ vu.1 < Z.of_nat h) ∧ (0 ≤ vu.2 < Z.of_nat w)))
         (rows a).

(** The indices of a field lie within the field's own shape. *)
Definition own_bounds (first : Buffer) : Prop :=
  indices_within (shape0 (indices first)) (shape1 (indices first)) (indices first).

(** The indices of a field lie within the shape of the opposing field. *)
Definition other_bounds (first second : Buffer) : Prop :=
  indices_within (shape0 (indices second)) (shape1 (indices second)) (indices first).

(** Every channel of a feature tensor is an array of [size2] by [size3]
    cells. *)
Definition features_shaped (f : features) : Prop :=
  Forall (fun ch : ndarray float32 =>
            well_shaped ch ∧ shape0 ch = size2 f ∧ shape1 ch = size3 f)
         (channels f).

(** The shapes that [Buffer.__init__] gives a buffer and that no call
    changes: the field and the bank of original patches have the rows and
    columns of the feature map. *)
Definition buffer_shaped (b : Buffer) : Prop :=
  well_shaped (indices b)
  ∧ shape0 (indices b) = size2 (features_orign b)
  ∧ shape1 (indices b) = size3 (features_orign b)
  ∧ shape0 (patches_orign b) = size2 (features_orign b)
  ∧ shape1 (patches_orign b) = size3 (features_orign b)
  ∧ features_shaped (features_orign b).

(** The calls that look up every index of the field in the opposing buffer:
    the initialisation in its patch bank, the merge in its feature map. *)
Definition seeds (m : mutation) : Prop :=
  match m with
  | Initialize _ | Merge (Some _) => True
  | _ => False
  end.

(** The score stored at [(y, x)] is the score of the index stored there. *)
Definition cell_consistent (second first : Buffer) (y x : Z) : Prop :=
  ∃ s v u, get2 (scores first) y x = Some s
           ∧ get2 (indices first) y x = Some (v, u)
           ∧ ∀ padding, patches_score first y x second v u padding = Some s.

(** A stored score [s] that became [s']: unchanged, or strictly greater. *)
Definition score_kept_or_raised (s s' : float32) : Prop :=
  s' = s ∨ F32.ltb s s' = true.

(** The arrays of a buffer have the spatial shape [h] by [w]. *)
Definition field_shaped (h w : nat) (b : Buffer) : Prop :=
  well_shaped (indices b) ∧ shape0 (indices b) = h ∧ shape1 (indices b) = w
  ∧ well_shaped (scores b) ∧ shape0 (scores b) = h ∧ shape1 (scores b) = w
  ∧ well_shaped (patches_orign b) ∧ shape0 (patches_orign b) = h
  ∧ shape1 (patches_orign b) = w
  ∧ well_shaped (patches_repro b) ∧ shape0 (patches_repro b) = h
  ∧ shape1 (patches_repro b) = w.

(** Every descriptor of a bank has [d] components. *)
Definition descriptors_sized (d : nat) (bank : ndarray (list float32)) : Prop :=
  Forall (Forall (fun v => length v = d)) (rows bank).

(** What no call on a field changes: its patch banks, its shape and its
    parameters. *)
Definition same_frame (first first' : Buffer) : Prop :=
  patches_repro first' = patches_repro first
  ∧ patches_orign first' = patches_orign first
  ∧ shape0 (indices first') = shape0 (indices first)
  ∧ shape1 (indices first') = shape1 (indices first)
  ∧ radius first' = radius first
  ∧ padding first' = padding first.

(** What propagation and search guarantee of the field they return. *)
Definition refined_from (second first first' : Buffer) : Prop :=
  same_frame first first'
  ∧ (∀ y x, 0 ≤ y → 0 ≤ x →
       cell_consistent second first y x → cell_consistent second first' y x)
  ∧ (∀ y x s, 0 ≤ y → 0 ≤ x → get2 (scores first) y x = Some s →
       ∃ s', get2 (scores first') y x = Some s' ∧ score_kept_or_raised s s')
  ∧ (own_bounds first → own_bounds first').

(** A call whose arguments are well formed: the field of the parent level
    given to a merge lies within its own shape, which [int32] coordinates
    can be doubled in. *)
Definition mutation_fits (m : mutation) : Prop :=
  match m with
  | Merge (Some parent) =>
      own_bounds parent
      ∧ Z.of_nat (shape0 (indices parent)) ≤ 2 ^ 30
      ∧ Z.of_nat (shape1 (indices parent)) ≤ 2 ^ 30
  | _ => True
  end.

(** A buffer whose arrays have the spatial shape [h] by [w] and whose
    descriptors have [d] components. *)
Definition field_ok (h w d : nat) (b : Buffer) : Prop :=
  field_shaped h w b
  ∧ descriptors_sized d (patches_orign b)
  ∧ descriptors_sized d (patches_repro b).

(** The patch banks of [second] have a cell for every cell of a field of
    [h] by [w] cells, with descriptors of [d] components. *)
Definition bank_covers (h w d : nat) (second : Buffer) : Prop :=
  well_shaped (patches_orign second)
  ∧ (h ≤ shape0 (patches_orign second))%nat
  ∧ (w ≤ shape1 (patches_orign second))%nat
  ∧ well_shaped (patches_repro second)
  ∧ (h ≤ shape0 (patches_repro second))%nat
  ∧ (w ≤ shape1 (patches_repro second))%nat
  ∧ descriptors_sized d (patches_orign second)
  ∧ descriptors_sized d (patches_repro second).


(** ** Example fields *)

(** A feature tensor of one channel. *)
Definition example_features (h w : nat) : features :=
  Features [tabulate2 h w (fun y x => F32.of_Z (y + x + 1))] h w.

(** A buffer as [Buffer.__init__] makes it from patches given cell by cell. *)
Definition example_buffer (h w : nat) (descriptor : Z → Z → list float32)
    (radius : Z) : Buffer :=
  Buffer_init (example_features h w) (tabulate2 h w descriptor)
              (tabulate2 h w (fun _ _ => F32.half)) F32.one radius 1.

(** A field of 2 by 2 cells with the descriptor [(y + 1, x)] at [(y, x)]. *)
Definition square_field : Buffer :=
  example_buffer 2 2 (fun y x => [F32.of_Z (y + 1); F32.of_Z x]) 4.

(** A field of 1 by 2 cells, every descriptor [(1, 0)]. *)
Definition wide_field : Buffer :=
  example_buffer 1 2 (fun _ _ => [F32.of_Z 1; F32.of_Z 0]) 1.

(** A field of one cell, with the descriptor [(0, 1)]. *)
Definition narrow_field : Buffer :=
  example_buffer 1 1 (fun _ _ => [F32.of_Z 0; F32.of_Z 1]) 1.

(** Two entropy sources. *)
Definition example_rng : rng := MkRng (fun n => Z.of_nat n * 7 + 3) 0.
Definition still_rng : rng := MkRng (fun _ => 0) 0.

(** An entropy source whose first two values are [e1] and [e2]. *)
Definition two_draws (e1 e2 : Z) : rng :=
  MkRng (fun n => match n with O => e1 | _ => e2 end) 0.

(** A field of one cell whose descriptor is zero. *)
Definition flat_field : Buffer :=
  example_buffer 1 1 (fun _ _ => [F32.zero; F32.zero]) 1.

(** A field of 4 by 4 cells, the level below [square_field]. *)
Definition fine_field : Buffer :=
  example_buffer 4 4 (fun y x => [F32.of_Z (y + 1); F32.of_Z x]) 4.

(** ** Notions of the further properties *)

(** Between two states of a field the cell [(y, x)] kept its score and its
    index, or its score rose strictly. *)
Definition cell_kept_or_improved (first first' : Buffer) (y x : Z) : Prop :=
  (get2 (scores first') y x = get2 (scores first) y x
   ∧ get2 (indices first') y x = get2 (indices first) y x)
  ∨ ∃ s s', get2 (scores first) y x = Some s
            ∧ get2 (scores first') y x = Some s'
            ∧ F32.ltb s s' = true.

(** Every cell kept its score and index or improved. *)
Definition cells_kept_or_improved (first first' : Buffer) : Prop :=
  ∀ y x, 0 ≤ y → 0 ≤ x → cell_kept_or_improved first first' y x.

(** [np.pad(..., mode='edge')] followed by the window offset: the coordinate
    of the feature map that the padded coordinate [i] holds. *)
Definition edge_clamp (n : nat) (p i : Z) : Z :=
  Z.min (Z.of_nat n - 1) (Z.max (i - p) 0).

(** ** The levels of the pyramid *)

(** What [NeuralAnalogy.extract] makes of one feature map: its patches, then
    the buffer. The feature maps themselves come from the network and are
    taken as given. *)
Definition extract_level (feats : features) (ws : ndarray float32)
    (weight : float32) (radius padding : Z) : option Buffer :=
  patches ← extract_patches feats padding;
  Some (Buffer_init feats patches ws weight radius padding).



(** A buffer of a level of [h] by [w] cells whose features have [c] channels
    and whose descriptors were extracted with the padding [p]. *)
Definition level_ok (h w c : nat) (p : Z) (b : Buffer) : Prop :=
  field_ok h w (Z.to_nat (2 * p + 1) * Z.to_nat (2 * p + 1) * c) b
  ∧ features_shaped (features_orign b)
  ∧ size2 (features_orign b) = h ∧ size3 (features_orign b) = w
  ∧ length (channels (features_orign b)) = c
  ∧ well_shaped (weights b) ∧ shape0 (weights b) = h ∧ shape1 (weights b) = w
  ∧ padding b = p ∧ 0 ≤ p ∧ (0 < h)%nat ∧ (0 < w)%nat.


(** The buffer that [extract_level] makes of the example features, with the
    radius 4 and the padding 1. *)
Definition level_example (h w : nat) : option Buffer :=
  extract_level (example_features h w) (tabulate2 h w (fun _ _ => F32.half))
                F32.one 4 1.

(** * Properties *)

(** ** Indexing and ranges *)

Lemma py_index_in_range (n : nat) (i : Z) :
  0 ≤ i < Z.of_nat n → py_index n i = Some (Z.to_nat i).
Proof.
  intros Hi. unfold py_index.
  destruct (0 <=? i) eqn:E1; [|lia].
  destruct (i <? Z.of_nat n) eqn:E2; [done|lia].
Qed.

Lemma py_index_lt (n : nat) (i : Z) (j : nat) :
  py_index n i = Some j → (j < n)%nat.
Proof.
  unfold py_index. intros H.
  destruct ((0 <=? i) && (i <? Z.of_nat n)) eqn:E1.
  - apply andb_true_iff in E1 as [? ?]. simplify_eq. lia.
  - destruct ((- Z.of_nat n <=? i) && (i <? 0)) eqn:E2; [|done].
    apply andb_true_iff in E2 as [? ?]. simplify_eq. lia.
Qed.

Lemma py_index_nonneg_inj (n : nat) (i i' : Z) (j : nat) :
  0 ≤ i → 0 ≤ i' → py_index n i = Some j → py_index n i' = Some j → i' = i.
Proof.
  unfold py_index. intros Hi Hi' H H'.
  destruct ((0 <=? i) && (i <? Z.of_nat n)) eqn:E1.
  2:{ destruct ((- Z.of_nat n <=? i) && (i <? 0)) eqn:E2; [|done].
      apply andb_true_iff in E2 as [? ?]. lia. }
  destruct ((0 <=? i') && (i' <? Z.of_nat n)) eqn:E3.
  2:{ destruct ((- Z.of_nat n <=? i') && (i' <? 0)) eqn:E4; [|done].
      apply andb_true_iff in E4 as [? ?]. lia. }
  simplify_eq. lia.
Qed.

Lemma elem_of_py_range (n : nat) (i : Z) : i ∈ py_range n ↔ 0 ≤ i < Z.of_nat n.
Proof. unfold py_range. rewrite elem_of_seqZ. lia. Qed.

Lemma py_range_down_reverse (n : nat) : py_range_down n = reverse (py_range n).
Proof.
  unfold py_range_down, py_range.
  apply list_eq. intros i.
  rewrite list_lookup_fmap.
  destruct (decide (i < n)%nat) as [Hi|Hi].
  - rewrite reverse_lookup by (rewrite length_seqZ; lia).
    rewrite length_seqZ, !lookup_seqZ_lt by lia. simpl. f_equal. lia.
  - rewrite lookup_seqZ_ge by lia. symmetry. apply lookup_ge_None.
    rewrite length_reverse, length_seqZ. lia.
Qed.

Lemma elem_of_py_range_down (n : nat) (i : Z) :
  i ∈ py_range_down n ↔ 0 ≤ i < Z.of_nat n.
Proof. rewrite py_range_down_reverse, elem_of_reverse. apply elem_of_py_range. Qed.

(** ** Arrays *)

Section arrays.
Context {A : Type}.
Implicit Types a : ndarray A.

Lemma set2_shape a y x v a' :
  set2 a y x v = Some a' → shape0 a' = shape0 a ∧ shape1 a' = shape1 a.
Proof. unfold set2. intros H. simplify_option_eq. done. Qed.

Lemma set2_well_shaped a y x v a' :
  set2 a y x v = Some a' → well_shaped a → well_shaped a'.
Proof.
  unfold set2, well_shaped. intros H [Hl Hr]. simplify_option_eq.
  split; [by rewrite length_insert|].
  apply Forall_insert; [done|]. rewrite length_insert.
  eapply (Forall_lookup_1 _ _ _ _ Hr). eassumption.
Qed.

(** Reading the cell just written, and any other cell. *)
Lemma get2_set2 a y x v a' y' x' :
  set2 a y x v = Some a' →
  get2 a' y' x' =
    if decide (py_index (shape0 a) y' = py_index (shape0 a) y
               ∧ py_index (shape1 a) x' = py_index (shape1 a) x)
    then Some v else get2 a y' x'.
Proof.
  unfold set2, get2. intros H.
  destruct (py_index (shape0 a) y) as [j0|] eqn:Ej0; [simpl in H|done].
  destruct (py_index (shape1 a) x) as [i0|] eqn:Ei0; [simpl in H|done].
  destruct (rows a !! j0) as [r0|] eqn:Er0; [simpl in H|done].
  destruct (r0 !! i0) as [c0|] eqn:Ec0; [simpl in H|done].
  injection H as <-. cbn [shape0 shape1 rows].
  destruct (decide _) as [[-> ->]|Hne]; simpl.
  - rewrite list_lookup_insert_eq by (by eapply lookup_lt_Some). simpl.
    by rewrite list_lookup_insert_eq by (by eapply lookup_lt_Some).
  - destruct (py_index (shape0 a) y') as [j'|] eqn:Ej'; [simpl|done].
    destruct (py_index (shape1 a) x') as [i'|] eqn:Ei'; [simpl|done].
    destruct (decide (j' = j0)) as [->|Hj].
    + rewrite list_lookup_insert_eq by (by eapply lookup_lt_Some). simpl.
      rewrite Er0. simpl.
      rewrite list_lookup_insert_ne; [done|].
      intros <-. by apply Hne.
    + by rewrite list_lookup_insert_ne.
Qed.

Lemma get2_set2_eq a y x v a' : set2 a y x v = Some a' → get2 a' y x = Some v.
Proof. intros H. rewrite (get2_set2 _ _ _ _ _ _ _ H). by rewrite decide_True. Qed.

Lemma get2_set2_ne a y x v a' y' x' :
  set2 a y x v = Some a' →
  0 ≤ y → 0 ≤ x → 0 ≤ y' → 0 ≤ x' → (y', x') ≠ (y, x) →
  get2 a' y' x' = get2 a y' x'.
Proof.
  intros H Hy Hx Hy' Hx' Hne. rewrite (get2_set2 _ _ _ _ _ _ _ H).
  rewrite decide_False; [done|]. intros [E0 E1]. apply Hne.
  unfold set2 in H.
  destruct (py_index (shape0 a) y) as [j|] eqn:Ej; [simpl in H|done].
  destruct (py_index (shape1 a) x) as [i|] eqn:Ei; [simpl in H|done].
  f_equal; eapply py_index_nonneg_inj; eauto.
Qed.

(** A cell that can be read can be written, and conversely. *)
Lemma set2_is_Some a y x v : is_Some (get2 a y x) → is_Some (set2 a y x v).
Proof.
  unfold get2, set2. intros [c Hc]. simplify_option_eq. eauto.
Qed.

Lemma get2_in_range a y x :
  well_shaped a → 0 ≤ y < Z.of_nat (shape0 a) → 0 ≤ x < Z.of_nat (shape1 a) →
  is_Some (get2 a y x).
Proof.
  intros [Hl Hr] Hy Hx. unfold get2.
  rewrite !py_index_in_range by done. simpl.
  destruct (lookup_lt_is_Some_2 (rows a) (Z.to_nat y)) as [r Er]; [lia|].
  rewrite Er. simpl. apply lookup_lt_is_Some_2.
  rewrite (Forall_lookup_1 _ _ _ _ Hr Er). lia.
Qed.

Lemma get2_elem_of a y x c : get2 a y x = Some c → ∃ r, r ∈ rows a ∧ c ∈ r.
Proof.
  unfold get2. intros H. simplify_option_eq.
  eexists. split; eapply list_elem_of_lookup_2; eassumption.
Qed.

Lemma get2_tabulate2 h w (f : Z → Z → A) y x :
  0 ≤ y < Z.of_nat h → 0 ≤ x < Z.of_nat w →
  get2 (tabulate2 h w f) y x = Some (f y x).
Proof.
  intros Hy Hx. unfold get2, tabulate2, py_range. simpl.
  rewrite !py_index_in_range by done. simpl.
  rewrite list_lookup_fmap, lookup_seqZ_lt by lia. simpl.
  rewrite list_lookup_fmap, lookup_seqZ_lt by lia. simpl.
  do 2 f_equal; lia.
Qed.

Lemma tabulate2_well_shaped h w (f : Z → Z → A) : well_shaped (tabulate2 h w f).
Proof.
  unfold well_shaped, tabulate2, py_range. simpl. split.
  - rewrite length_fmap, length_seqZ. lia.
  - apply Forall_fmap, Forall_forall. intros y _. simpl.
    rewrite length_fmap, length_seqZ. lia.
Qed.

End arrays.

Lemma get2_map_cells {A B} (f : A → B) (a : ndarray A) y x :
  get2 (map_cells f a) y x = f <$> get2 a y x.
Proof.
  unfold get2, map_cells. simpl.
  destruct (py_index (shape0 a) y) as [j|]; [simpl|done].
  destruct (py_index (shape1 a) x) as [i|]; [simpl|done].
  change (List.map (List.map f) (rows a)) with (fmap (M:=list) (fmap f) (rows a)).
  rewrite list_lookup_fmap.
  destruct (rows a !! j) as [r|]; [simpl|done].
  by rewrite list_lookup_fmap.
Qed.

Lemma tabulate2M_shape {A} h w (f : Z → Z → option A) a :
  tabulate2M h w f = Some a → shape0 a = h ∧ shape1 a = w.
Proof. unfold tabulate2M. intros H. by simplify_option_eq. Qed.

(** Every cell of a tabulated array was computed at some coordinates. *)
Lemma tabulate2M_cells {A} h w (f : Z → Z → option A) a r c :
  tabulate2M h w f = Some a → r ∈ rows a → c ∈ r →
  ∃ y x, (0 ≤ y < Z.of_nat h) ∧ (0 ≤ x < Z.of_nat w) ∧ f y x = Some c.
Proof.
  unfold tabulate2M. intros H Hr Hc.
  destruct (mapM _ (py_range h)) as [rs|] eqn:E; [simpl in H|done].
  injection H as <-. simpl in Hr.
  apply mapM_Some_1 in E.
  apply list_elem_of_lookup in Hr as [j Hj].
  destruct (Forall2_lookup_r _ _ _ _ _ E Hj) as (y & Hy & Hrow).
  apply mapM_Some_1 in Hrow.
  apply list_elem_of_lookup in Hc as [i Hi].
  destruct (Forall2_lookup_r _ _ _ _ _ Hrow Hi) as (x & Hx & Hcell).
  assert (y ∈ py_range h) as Hy' by (by eapply list_elem_of_lookup_2).
  assert (x ∈ py_range w) as Hx' by (by eapply list_elem_of_lookup_2).
  apply elem_of_py_range in Hy', Hx'.
  by exists y, x.
Qed.

(** An array whose cells can all be computed is the array of their values. *)
Lemma tabulate2M_Some {A} h w (f : Z → Z → option A) (g : Z → Z → A) :
  (∀ y x, 0 ≤ y < Z.of_nat h → 0 ≤ x < Z.of_nat w → f y x = Some (g y x)) →
  tabulate2M h w f = Some (tabulate2 h w g).
Proof.
  intros Hf. unfold tabulate2M, tabulate2.
  assert (mapM (fun y => mapM (f y) (py_range w)) (py_range h)
          = Some ((fun y => g y <$> py_range w) <$> py_range h)) as ->; [|done].
  apply mapM_Some_2, Forall2_fmap_r, Forall_Forall2_diag, Forall_forall.
  intros y Hy%elem_of_py_range.
  apply mapM_Some_2, Forall2_fmap_r, Forall_Forall2_diag, Forall_forall.
  intros x Hx%elem_of_py_range. by apply Hf.
Qed.

Lemma tabulate2M_well_shaped {A} h w (f : Z → Z → option A) a :
  tabulate2M h w f = Some a → well_shaped a.
Proof.
  unfold tabulate2M, well_shaped. intros H.
  destruct (mapM _ (py_range h)) as [rs|] eqn:E; [simpl in H|done].
  injection H as <-. simpl.
  pose proof (mapM_Some_1 _ _ _ E) as HF. split.
  - rewrite <- (Forall2_length _ _ _ HF). unfold py_range.
    rewrite length_seqZ. lia.
  - apply Forall_forall. intros r Hr.
    apply list_elem_of_lookup in Hr as [j Hj].
    destruct (Forall2_lookup_r _ _ _ _ _ HF Hj) as (y & Hy & Hrow).
    apply mapM_Some_1, Forall2_length in Hrow. rewrite <- Hrow.
    unfold py_range. rewrite length_seqZ. lia.
Qed.

(** ** Loops *)

(** A property kept by every iteration that returns is kept by the loop. *)
Lemma for_each_preserves {S A} (I : S → Prop) (l : list A) (body : A → S → option S) :
  (∀ a s s', a ∈ l → I s → body a s = Some s' → I s') →
  ∀ s s', I s → for_each l body s = Some s' → I s'.
Proof.
  induction l as [|a l IH]; intros Hbody s s' Hs Hrun; simpl in Hrun.
  - by simplify_eq.
  - destruct (body a s) as [s1|] eqn:E; [simpl in Hrun|done].
    eapply IH; [| |exact Hrun].
    + intros. eapply Hbody; [|eassumption..]. by right.
    + eapply Hbody; [|eassumption..]. by left.
Qed.

(** The same with the iterations already made in hand. *)
Lemma for_each_prefix {S A} (P : list A → S → Prop) (l : list A)
    (body : A → S → option S) :
  (∀ done a s s', a ∈ l → P done s → body a s = Some s' → P (done ++ [a]) s') →
  ∀ s s', P [] s → for_each l body s = Some s' → P l s'.
Proof.
  intros Hbody.
  cut (∀ done s s', P done s → for_each l body s = Some s' → P (done ++ l) s').
  { intros H s s'. apply (H []). }
  induction l as [|a l IH]; intros done s s' Hs Hrun; simpl in Hrun.
  - rewrite app_nil_r. by simplify_eq.
  - destruct (body a s) as [s1|] eqn:E; [simpl in Hrun|done].
    rewrite (cons_middle a done l), app_assoc. eapply IH; [| |exact Hrun].
    + intros. eapply Hbody; [|eassumption..]. by right.
    + eapply Hbody; [|eassumption..]. by left.
Qed.

(** A loop whose iterations all return, returns. *)
Lemma for_each_total {S A} (I : S → Prop) (l : list A) (body : A → S → option S) :
  (∀ a s, a ∈ l → I s → ∃ s', body a s = Some s' ∧ I s') →
  ∀ s, I s → ∃ s', for_each l body s = Some s' ∧ I s'.
Proof.
  induction l as [|a l IH]; intros Hbody s Hs; simpl.
  - eauto.
  - destruct (Hbody a s) as (s1 & E & Hs1); [by left|done|].
    rewrite E. simpl. apply IH; [|done].
    intros. apply Hbody; [by right|done].
Qed.

Lemma for_each_app {S A} (l1 l2 : list A) (body : A → S → option S) s :
  for_each (l1 ++ l2) body s = for_each l1 body s ≫= for_each l2 body.
Proof.
  revert s. induction l1 as [|a l1 IH]; intros s; simpl; [done|].
  destruct (body a s); simpl; [apply IH|done].
Qed.


(** ** The order of binary32 values *)

Lemma F32_ltb_irrefl (a : float32) : F32.ltb a a = false.
Proof.
  unfold F32.ltb, SFltb, SFcompare.
  destruct a as [s|s| |s m e]; try done; destruct s; try done;
    rewrite Z.compare_refl;
    change (Pos.compare_cont Eq m m) with (Pos.compare m m);
    by rewrite Pos.compare_refl.
Qed.

Lemma F32_compare_finite_lt s1 m1 e1 s2 m2 e2 :
  SFcompare (S754_finite s1 m1 e1) (S754_finite s2 m2 e2) = Some Lt ↔
  match s1, s2 with
  | true, false => True
  | false, true => False
  | false, false => e1 < e2 ∨ (e1 = e2 ∧ (m1 < m2)%positive)
  | true, true => e2 < e1 ∨ (e1 = e2 ∧ (m2 < m1)%positive)
  end.
Proof.
  simpl. change (Pos.compare_cont Eq m1 m2) with (Pos.compare m1 m2).
  destruct s1, s2; try (split; [done|intros []]); try done;
    destruct (Z.compare_spec e1 e2) as [He|He|He];
    destruct (Pos.compare_spec m1 m2) as [Hm|Hm|Hm];
    simpl; split; intros Hlt; try done; try lia; simplify_eq; try lia;
    try (left; lia); try (right; split; [done|lia]).
Qed.

Lemma F32_ltb_trans (a b c : float32) :
  F32.ltb a b = true → F32.ltb b c = true → F32.ltb a c = true.
Proof.
  unfold F32.ltb, SFltb.
  destruct (SFcompare a b) as [[]|] eqn:Eab; try done.
  destruct (SFcompare b c) as [[]|] eqn:Ebc; try done.
  intros _ _.
  cut (SFcompare a c = Some Lt); [by intros ->|].
  destruct a as [sa|sa| |sa ma ea], b as [sb|sb| |sb mb eb],
           c as [sc|sc| |sc mc ec];
    try (simpl in *; done);
    try (simpl in *; destruct sa; done);
    try (simpl in *; destruct sb; done);
    try (simpl in *; destruct sc; done);
    try (simpl in *; destruct sa, sb; done);
    try (simpl in *; destruct sb, sc; done);
    try (simpl in *; destruct sa, sc; done);
    try (simpl in Eab, Ebc |- *; destruct sa, sb, sc; done).
  apply F32_compare_finite_lt in Eab, Ebc. apply F32_compare_finite_lt.
  destruct sa, sb, sc; try done; lia.
Qed.

Lemma F32_ltb_asym (a b : float32) : F32.ltb a b = true → F32.ltb b a = false.
Proof.
  intros Hab. destruct (F32.ltb b a) eqn:Hba; [|done].
  by rewrite <- (F32_ltb_irrefl a), (F32_ltb_trans a b a).
Qed.

Lemma F32_kept_or_raised_refl (s : float32) : score_kept_or_raised s s.
Proof. by left. Qed.

Lemma F32_kept_or_raised_trans (s1 s2 s3 : float32) :
  score_kept_or_raised s1 s2 → score_kept_or_raised s2 s3 →
  score_kept_or_raised s1 s3.
Proof.
  intros [->|H12] [->|H23]; [by left|by right|by right|].
  right. by eapply F32_ltb_trans.
Qed.

Lemma F32_kept_or_raised_not_lowered (s s' : float32) :
  score_kept_or_raised s s' → F32.ltb s' s = false.
Proof. intros [->|H]; [apply F32_ltb_irrefl|by apply F32_ltb_asym]. Qed.

(** ** The score *)

Lemma tensor_mul_same_length (a b : list float32) :
  length a = length b → tensor_mul a b = Some (zip_with F32.mul a b).
Proof. intros H. unfold tensor_mul. by rewrite decide_True. Qed.

Lemma zip_with_products (a b : list float32) :
  zip_with F32.mul a b = products a b.
Proof.
  revert b. induction a as [|x a IH]; intros [|y b]; simpl;
    first [done | by rewrite IH].
Qed.

(** C1. For a cell [(y, x)] of [first] and a cell [(v, u)] of [second] whose
    descriptors have the same size, [patches_score] returns exactly
    [0.5 * (dot(first.patches_repro[y,x], second.patches_orign[v,u])
          + dot(first.patches_orign[y,x], second.patches_repro[v,u]))]
    in binary32: each dot product is the sum of the products of the
    components, each product rounded, added up by the reduction of the tensor
    library; the equality holds to the bit whatever order that reduction adds
    in. *)
Theorem patches_score_formula (first second : Buffer) (y x v u padding : Z)
    (a_repro a_orign b_orign b_repro : list float32) :
  get2 (patches_repro first) y x = Some a_repro →
  get2 (patches_orign first) y x = Some a_orign →
  get2 (patches_orign second) v u = Some b_orign →
  get2 (patches_repro second) v u = Some b_repro →
  length a_repro = length b_orign →
  length a_orign = length b_repro →
  patches_score first y x second v u padding =
    Some (score_formula a_repro a_orign b_orign b_repro).
Proof.
  intros Ha Hc Hb Hd Hab Hcd. unfold patches_score, score_formula, dot.
  rewrite Ha, Hb, Hc, Hd. simpl.
  rewrite !tensor_mul_same_length by done. simpl.
  by rewrite !zip_with_products.
Qed.

(** C10. The [padding] argument of [patches_score], [patches_initialize],
    [patches_propagate] and [patches_search] has no influence on what they
    return, store or draw. *)
Theorem padding_has_no_influence (first second : Buffer) (y x v u : Z)
    (i times radius : Z) (g : rng) (p1 p2 : Z) :
  patches_score first y x second v u p1 = patches_score first y x second v u p2
  ∧ patches_initialize first second p1 = patches_initialize first second p2
  ∧ patches_propagate first second i p1 = patches_propagate first second i p2
  ∧ patches_search first second times radius p1 g
    = patches_search first second times radius p2 g.
Proof. repeat split; reflexivity. Qed.

(** The score reads the two patch banks of [first] and nothing else of it. *)
Lemma patches_score_banks (first first' second : Buffer) y x v u padding :
  patches_repro first' = patches_repro first →
  patches_orign first' = patches_orign first →
  patches_score first' y x second v u padding
  = patches_score first y x second v u padding.
Proof. intros H1 H2. unfold patches_score. by rewrite H1, H2. Qed.

Lemma patches_score_padding (first second : Buffer) y x v u p1 p2 :
  patches_score first y x second v u p1 = patches_score first y x second v u p2.
Proof. reflexivity. Qed.

(** ** Greedy acceptance *)

Lemma same_frame_refl (first : Buffer) : same_frame first first.
Proof. by repeat split. Qed.

Lemma same_frame_trans (b1 b2 b3 : Buffer) :
  same_frame b1 b2 → same_frame b2 b3 → same_frame b1 b3.
Proof.
  unfold same_frame. intros (?&?&?&?&?&?) (?&?&?&?&?&?).
  repeat split; congruence.
Qed.

Lemma refined_from_refl (second first : Buffer) : refined_from second first first.
Proof.
  split; [apply same_frame_refl|]. repeat split; try done.
  intros y x s _ _ Hs. exists s. split; [done|by left].
Qed.

Lemma refined_from_trans (second b1 b2 b3 : Buffer) :
  refined_from second b1 b2 → refined_from second b2 b3 →
  refined_from second b1 b3.
Proof.
  intros (F12 & C12 & S12 & B12) (F23 & C23 & S23 & B23).
  split; [by eapply same_frame_trans|]. repeat split.
  - intros y x Hy Hx Hc. by apply C23, C12.
  - intros y x s Hy Hx Hs.
    destruct (S12 y x s Hy Hx Hs) as (s2 & Hs2 & K12).
    destruct (S23 y x s2 Hy Hx Hs2) as (s3 & Hs3 & K23).
    exists s3. split; [done|]. by eapply F32_kept_or_raised_trans.
  - intros Hb. by apply B23, B12.
Qed.

Lemma set2_indices_within (h w : nat) (a a' : ndarray (Z * Z)) y x v u :
  set2 a y x (v, u) = Some a' →
  0 ≤ v < Z.of_nat h → 0 ≤ u < Z.of_nat w →
  indices_within h w a → indices_within h w a'.
Proof.
  unfold set2, indices_within. intros H Hv Hu Ha.
  destruct (py_index (shape0 a) y) as [j|]; [simpl in H|done].
  destruct (py_index (shape1 a) x) as [i|]; [simpl in H|done].
  destruct (rows a !! j) as [r|] eqn:Er; [simpl in H|done].
  destruct (r !! i) as [c|]; [simpl in H|done].
  injection H as <-. simpl.
  apply Forall_insert; [done|].
  apply Forall_insert; [|done].
  by eapply (Forall_lookup_1 _ _ _ _ Ha).
Qed.

(** Either nothing changes, or the cell takes the candidate and its strictly
    greater score. *)
Lemma accept_if_better_cases (first first' : Buffer) y x score v u :
  accept_if_better first y x score v u = Some first' →
  first' = first
  ∨ ∃ cur sc ix,
      get2 (scores first) y x = Some cur ∧ F32.ltb cur score = true
      ∧ set2 (scores first) y x score = Some sc
      ∧ set2 (indices first) y x (v, u) = Some ix
      ∧ first' = with_indices (with_scores first sc) ix.
Proof.
  unfold accept_if_better. intros H.
  destruct (get2 (scores first) y x) as [cur|] eqn:Ecur; [simpl in H|done].
  destruct (F32.gtb score cur) eqn:Egt; [|left; by simplify_eq].
  destruct (set2 (scores first) y x score) as [sc|] eqn:Esc; [simpl in H|done].
  destruct (set2 (indices first) y x (v, u)) as [ix|] eqn:Eix; [simpl in H|done].
  right. exists cur, sc, ix. by simplify_eq.
Qed.

(** Accepting a candidate whose score was computed by [patches_score]. *)
Lemma accept_scored_refines (second first first' : Buffer) y x v u padding score :
  0 ≤ y → 0 ≤ x →
  0 ≤ v < Z.of_nat (shape0 (indices first)) →
  0 ≤ u < Z.of_nat (shape1 (indices first)) →
  patches_score first y x second v u padding = Some score →
  accept_if_better first y x score v u = Some first' →
  refined_from second first first'.
Proof.
  intros Hy Hx Hv Hu Hscore Hacc.
  apply accept_if_better_cases in Hacc
    as [->|(cur & sc & ix & Hcur & Hlt & Hsc & Hix & ->)];
    [apply refined_from_refl|].
  destruct (set2_shape _ _ _ _ _ Hix) as [Hs0 Hs1].
  split; [by repeat split|]. repeat split.
  - intros y' x' Hy' Hx' (s & v' & u' & Hs & Hi & Hp).
    unfold cell_consistent. simpl.
    destruct (decide ((y', x') = (y, x))) as [E|Hne].
    + injection E as -> ->. exists score, v, u.
      rewrite (get2_set2_eq _ _ _ _ _ Hsc), (get2_set2_eq _ _ _ _ _ Hix).
      repeat split; try done; intros p'; exact Hscore.
    + exists s, v', u'.
      rewrite (get2_set2_ne _ _ _ _ _ _ _ Hsc), (get2_set2_ne _ _ _ _ _ _ _ Hix)
        by done.
      repeat split; try done; intros p'; apply Hp.
  - intros y' x' s Hy' Hx' Hs. simpl.
    destruct (decide ((y', x') = (y, x))) as [E|Hne].
    + injection E as -> ->. exists score.
      rewrite (get2_set2_eq _ _ _ _ _ Hsc). split; [done|].
      right. congruence.
    + exists s. rewrite (get2_set2_ne _ _ _ _ _ _ _ Hsc) by done.
      split; [done|by left].
  - unfold own_bounds. simpl. rewrite Hs0, Hs1.
    by eapply set2_indices_within.
Qed.

(** ** Propagation and search refine a field *)

Lemma elem_of_propagate_scan (even : bool) (n : nat) (i : Z) :
  i ∈ propagate_scan even n ↔ 0 ≤ i < Z.of_nat n.
Proof.
  destruct even; simpl; [apply elem_of_py_range|apply elem_of_py_range_down].
Qed.

Lemma propagate_neighbour_in_range (h w : nat) (y x : Z) (offset : Z * Z) :
  (0 < h)%nat → (0 < w)%nat →
  0 ≤ (propagate_neighbour h w y x offset).1 < Z.of_nat h
  ∧ 0 ≤ (propagate_neighbour h w y x offset).2 < Z.of_nat w.
Proof. unfold propagate_neighbour. simpl. lia. Qed.

Lemma propagate_candidate_in_range (h w : nat) (nvu offset : Z * Z) :
  (0 < h)%nat → (0 < w)%nat →
  0 ≤ (propagate_candidate h w nvu offset).1 < Z.of_nat h
  ∧ 0 ≤ (propagate_candidate h w nvu offset).2 < Z.of_nat w.
Proof. unfold propagate_candidate. simpl. lia. Qed.

Lemma propagate_step_refines (second first first' : Buffer) padding y x offset :
  0 ≤ y < Z.of_nat (shape0 (indices first)) →
  0 ≤ x < Z.of_nat (shape1 (indices first)) →
  propagate_step second padding y x offset first = Some first' →
  refined_from second first first'.
Proof.
  intros Hy Hx. unfold propagate_step.
  set (h := shape0 (indices first)). set (w := shape1 (indices first)).
  intros H.
  destruct (get2 (indices first) _ _) as [nvu|]; [simpl in H|done].
  destruct (patches_score first y x second _ _ padding) as [score|] eqn:Es;
    [simpl in H|done].
  destruct (propagate_candidate_in_range h w nvu offset) as [Hv Hu];
    [unfold h; lia|unfold w; lia|].
  eapply accept_scored_refines; [| |exact Hv|exact Hu|exact Es|exact H]; lia.
Qed.

Lemma patches_propagate_refines (second first first' : Buffer) i padding :
  patches_propagate first second i padding = Some first' →
  refined_from second first first'.
Proof.
  unfold patches_propagate.
  apply (for_each_preserves (refined_from second first));
    [|apply refined_from_refl].
  intros y s s' Hy%elem_of_propagate_scan Hs.
  apply (for_each_preserves (refined_from second first)); [|done].
  clear s s' Hs. intros x s s' Hx%elem_of_propagate_scan Hs.
  apply (for_each_preserves (refined_from second first)); [|done].
  clear s s' Hs. intros offset s s' _ Hs Hstep.
  eapply refined_from_trans; [exact Hs|].
  destruct Hs as ((_ & _ & E0 & E1 & _) & _).
  eapply propagate_step_refines; [| |exact Hstep]; congruence.
Qed.

Lemma randint_in_range (g g' : rng) (low high r : Z) :
  randint g low high = Some (r, g') →
  low ≤ r < high ∧ entropy g' = entropy g ∧ drawn g' = S (drawn g).
Proof.
  unfold randint. destruct (low <? high) eqn:E; [|done].
  intros H. simplify_eq. simpl. repeat split; try done.
  - pose proof (Z.mod_pos_bound (entropy g (drawn g)) (high - low)). lia.
  - pose proof (Z.mod_pos_bound (entropy g (drawn g)) (high - low)). lia.
Qed.

Lemma search_candidate_in_range (h w : nat) radius vu (g g' : rng) v u :
  search_candidate h w radius vu g = Some (v, u, g') →
  (0 < h)%nat → (0 < w)%nat →
  0 ≤ v < Z.of_nat h ∧ 0 ≤ u < Z.of_nat w.
Proof.
  unfold search_candidate. intros H Hh Hw.
  destruct (0 <? radius).
  - destruct vu as [[v0 u0]|]; [simpl in H|done].
    destruct (randint g _ _) as [[dv g1]|]; [simpl in H|done].
    destruct (randint g1 _ _) as [[du g2]|]; [simpl in H|done].
    simplify_eq. lia.
  - destruct (randint g _ _) as [[v1 g1]|] eqn:E1; [simpl in H|done].
    destruct (randint g1 _ _) as [[u1 g2]|] eqn:E2; [simpl in H|done].
    simplify_eq.
    apply randint_in_range in E1 as [? _], E2 as [? _]. lia.
Qed.

Lemma search_step_refines (second first : Buffer) radius padding y x g st' :
  0 ≤ y < Z.of_nat (shape0 (indices first)) →
  0 ≤ x < Z.of_nat (shape1 (indices first)) →
  search_step second radius padding y x (first, g) = Some st' →
  refined_from second first st'.1.
Proof.
  intros Hy Hx. unfold search_step. simpl. intros H.
  destruct (search_candidate _ _ _ _ _) as [[[v u] g1]|] eqn:Ec; [simpl in H|done].
  destruct (patches_score first y x second v u padding) as [score|] eqn:Es;
    [simpl in H|done].
  destruct (accept_if_better first y x score v u) as [first'|] eqn:Ea;
    [simpl in H|done].
  simplify_eq. simpl.
  destruct (search_candidate_in_range _ _ _ _ _ _ _ _ Ec) as [Hv Hu]; [lia..|].
  eapply accept_scored_refines; [| |exact Hv|exact Hu|exact Es|exact Ea]; lia.
Qed.

Lemma patches_search_refines (second first : Buffer) times radius padding g st' :
  patches_search first second times radius padding g = Some st' →
  refined_from second first st'.1.
Proof.
  unfold patches_search.
  apply (for_each_preserves (fun st : Buffer * rng => refined_from second first st.1));
    [|apply refined_from_refl].
  intros y s s' Hy%elem_of_py_range Hs.
  apply (for_each_preserves (fun st : Buffer * rng => refined_from second first st.1));
    [|done].
  clear s s' Hs. intros x s s' Hx%elem_of_py_range Hs.
  apply (for_each_preserves (fun st : Buffer * rng => refined_from second first st.1));
    [|done].
  clear s s' Hs. intros k [s g0] s' _ Hs Hstep. simpl in Hs.
  eapply refined_from_trans; [exact Hs|].
  destruct Hs as ((_ & _ & E0 & E1 & _) & _).
  eapply search_step_refines; [| |exact Hstep]; congruence.
Qed.

(** Every sequence of propagation and search calls refines the field. *)
Lemma run_refinements_refine (second : Buffer) (ms : list mutation) st st' :
  Forall refines ms →
  run_mutations second ms st = Some st' →
  refined_from second st.1 st'.1.
Proof.
  intros Hms. unfold run_mutations.
  apply (for_each_preserves (fun s : Buffer * rng => refined_from second st.1 s.1));
    [|apply refined_from_refl].
  intros m s s' Hm Hs Hrun.
  eapply refined_from_trans; [exact Hs|].
  rewrite Forall_forall in Hms. specialize (Hms m Hm).
  destruct m as [p|i p|t r p|parent]; simpl in Hms; try done; simpl in Hrun.
  - destruct (patches_propagate s.1 second i p) as [f|] eqn:E; [simpl in Hrun|done].
    simplify_eq. simpl. by eapply patches_propagate_refines.
  - by eapply patches_search_refines.
Qed.

(** ** Initialisation *)

Lemma initialize_cell_spec (second s s' : Buffer) padding y x :
  0 ≤ y → 0 ≤ x →
  initialize_cell second padding y x s = Some s' →
  same_frame s s' ∧ indices s' = indices s
  ∧ cell_consistent second s' y x
  ∧ (∀ y' x', 0 ≤ y' → 0 ≤ x' →
       cell_consistent second s y' x' → cell_consistent second s' y' x').
Proof.
  intros Hy Hx. unfold initialize_cell. intros H.
  destruct (get2 (indices s) y x) as [[v u]|] eqn:Ei; [simpl in H|done].
  destruct (patches_score s y x second v u padding) as [sc|] eqn:Es;
    [simpl in H|done].
  destruct (set2 (scores s) y x sc) as [arr|] eqn:Ea; [simpl in H|done].
  simplify_eq. repeat split; try done.
  - exists sc, v, u. simpl. rewrite (get2_set2_eq _ _ _ _ _ Ea).
    repeat split; try done; intros p'; exact Es.
  - intros y' x' Hy' Hx' (s0 & v' & u' & Hs0 & Hi0 & Hp0).
    unfold cell_consistent. simpl.
    destruct (decide ((y', x') = (y, x))) as [E|Hne].
    + injection E as -> ->. exists sc, v, u.
      rewrite (get2_set2_eq _ _ _ _ _ Ea).
      repeat split; try done; intros p'; exact Es.
    + exists s0, v', u'. rewrite (get2_set2_ne _ _ _ _ _ _ _ Ea) by done.
      repeat split; try done; intros p'; apply Hp0.
Qed.

(** After [patches_initialize] every cell is consistent, and the indices are
    those it was given. *)
Lemma patches_initialize_spec (second first first' : Buffer) padding :
  patches_initialize first second padding = Some first' →
  same_frame first first' ∧ indices first' = indices first
  ∧ ∀ y x, 0 ≤ y < Z.of_nat (shape0 (indices first)) →
           0 ≤ x < Z.of_nat (shape1 (indices first)) →
           cell_consistent second first' y x.
Proof.
  unfold patches_initialize.
  set (h := shape0 (indices first)). set (w := shape1 (indices first)).
  intros H.
  cut (same_frame first first' ∧ indices first' = indices first
       ∧ ∀ y, y ∈ py_range h → 0 ≤ y → ∀ x, 0 ≤ x < Z.of_nat w →
              cell_consistent second first' y x).
  { intros (F & I & C). split; [done|]. split; [done|].
    intros y x Hy Hx. apply C; [by apply elem_of_py_range|lia|done]. }
  revert H.
  apply (for_each_prefix (fun done s =>
           same_frame first s ∧ indices s = indices first
           ∧ ∀ y, y ∈ done → 0 ≤ y → ∀ x, 0 ≤ x < Z.of_nat w →
                  cell_consistent second s y x)).
  2:{ split; [apply same_frame_refl|]. split; [done|].
      intros y Hy. by apply not_elem_of_nil in Hy. }
  intros done_y y s s' Hy%elem_of_py_range (F & I & C) H.
  cut (same_frame first s' ∧ indices s' = indices first
       ∧ (∀ y', y' ∈ done_y → 0 ≤ y' → ∀ x, 0 ≤ x < Z.of_nat w →
            cell_consistent second s' y' x)
       ∧ ∀ x, x ∈ py_range w → 0 ≤ x → cell_consistent second s' y x).
  { intros (F' & I' & C' & Cy). split; [done|]. split; [done|].
    intros y' Hy' Hy0 x Hx. apply elem_of_app in Hy' as [Hy'|Hy'].
    - by apply C'.
    - apply list_elem_of_singleton in Hy' as ->.
      apply Cy; [by apply elem_of_py_range|lia]. }
  revert H.
  apply (for_each_prefix (fun done s0 =>
           same_frame first s0 ∧ indices s0 = indices first
           ∧ (∀ y', y' ∈ done_y → 0 ≤ y' → ∀ x, 0 ≤ x < Z.of_nat w →
                cell_consistent second s0 y' x)
           ∧ ∀ x, x ∈ done → 0 ≤ x → cell_consistent second s0 y x)).
  2:{ split; [done|]. split; [done|]. split; [done|].
      intros x Hx. by apply not_elem_of_nil in Hx. }
  clear s s' F I C.
  intros done_x x s s' Hx%elem_of_py_range (F & I & C & Cy) Hcell.
  apply initialize_cell_spec in Hcell as (F' & I' & Cnew & Ckeep); [|lia..].
  split; [by eapply same_frame_trans|]. split; [congruence|]. split.
  - intros y' Hy' Hy0 x' Hx'. apply Ckeep; [lia|lia|by apply C].
  - intros x' Hx' Hx0. apply elem_of_app in Hx' as [Hx'|Hx'].
    + apply Ckeep; [lia|lia|by apply Cy].
    + by apply list_elem_of_singleton in Hx' as ->.
Qed.

(** ** Invariants of a field *)

(** C6. Over any sequence of propagation and search calls on a field, the
    score stored at a cell never decreases: it is the score stored before, or
    a strictly greater one. *)
Theorem stored_scores_never_decrease (second : Buffer) (ms : list mutation)
    (st st' : Buffer * rng) (y x : Z) (s : float32) :
  Forall refines ms →
  run_mutations second ms st = Some st' →
  0 ≤ y → 0 ≤ x →
  get2 (scores st.1) y x = Some s →
  ∃ s', get2 (scores st'.1) y x = Some s'
        ∧ (s' = s ∨ F32.ltb s s' = true)
        ∧ F32.ltb s' s = false.
Proof.
  intros Hms Hrun Hy Hx Hs.
  destruct (run_refinements_refine _ _ _ _ Hms Hrun) as (_ & _ & Hraise & _).
  destruct (Hraise y x s Hy Hx Hs) as (s' & Hs' & Hk).
  exists s'. split; [done|]. split; [exact Hk|].
  by apply F32_kept_or_raised_not_lowered.
Qed.

(** C7. After [patches_initialize] and any sequence of propagation and search
    calls that follows it, the score stored at every cell is the value of
    [patches_score] at the index stored at that cell. *)
Theorem stored_score_is_score_of_stored_index (first second first1 : Buffer)
    (padding : Z) (ms : list mutation) (g : rng) (st2 : Buffer * rng) (y x : Z) :
  patches_initialize first second padding = Some first1 →
  Forall refines ms →
  run_mutations second ms (first1, g) = Some st2 →
  0 ≤ y < Z.of_nat (shape0 (indices first)) →
  0 ≤ x < Z.of_nat (shape1 (indices first)) →
  ∃ s v u, get2 (scores st2.1) y x = Some s
           ∧ get2 (indices st2.1) y x = Some (v, u)
           ∧ patches_score st2.1 y x second v u padding = Some s.
Proof.
  intros Hinit Hms Hrun Hy Hx.
  destruct (patches_initialize_spec _ _ _ _ Hinit) as (_ & _ & Hc).
  destruct (run_refinements_refine _ _ _ _ Hms Hrun) as (_ & Hkeep & _).
  destruct (Hkeep y x) as (s & v & u & Hs & Hi & Hp); [lia|lia|by apply Hc|].
  exists s, v, u. split; [done|]. split; [done|]. apply Hp.
Qed.

(** ** Bounds of the stored indices *)

Lemma wrap_int32_small (z : Z) : - 2 ^ 31 ≤ z < 2 ^ 31 → wrap_int32 z = z.
Proof. intros H. unfold wrap_int32. rewrite Z.mod_small; lia. Qed.

(** What [merge_flow] leaves in [indices]. *)
Lemma merge_flow_indices (this parent other this' : Buffer) :
  merge_flow this (Some parent) other = Some this' →
  zoom2 (double_indices (indices parent)) = Some (indices this')
  ∧ shape0 (indices this') = shape0 (indices this)
  ∧ shape1 (indices this') = shape1 (indices this).
Proof.
  unfold merge_flow. intros H.
  destruct (zoom2 _) as [zoomed|]; [simpl in H|done].
  case_decide as Hshape; [|done]. destruct Hshape as [E0 E1].
  destruct (warp_features _ _ _) as [warpd|]; [simpl in H|done].
  destruct (blend_features _ _ _) as [repro|]; [simpl in H|done].
  destruct (extract_patches _ _) as [patches|]; [simpl in H|done].
  by simplify_eq.
Qed.

Lemma zoom2_doubled_within (a zoomed : ndarray (Z * Z)) :
  zoom2 (double_indices a) = Some zoomed →
  indices_within (shape0 a) (shape1 a) a →
  Z.of_nat (shape0 a) ≤ 2 ^ 30 → Z.of_nat (shape1 a) ≤ 2 ^ 30 →
  indices_within (shape0 zoomed) (shape1 zoomed) zoomed.
Proof.
  unfold zoom2. intros Hz Ha H0 H1.
  destruct (tabulate2M_shape _ _ _ _ Hz) as [-> ->]. simpl.
  apply Forall_forall. intros r Hr. apply Forall_forall. intros c Hc.
  destruct (tabulate2M_cells _ _ _ _ _ _ Hz Hr Hc) as (y & x & _ & _ & Hcell).
  cbv beta in Hcell. unfold double_indices in Hcell.
  rewrite get2_map_cells in Hcell.
  destruct (get2 a _ _) as [[v u]|] eqn:Eg; [simpl in Hcell|done].
  simplify_eq. simpl.
  destruct (get2_elem_of _ _ _ _ Eg) as (r0 & Hr0 & Hvu).
  unfold indices_within in Ha. rewrite Forall_forall in Ha.
  specialize (Ha r0 Hr0). rewrite Forall_forall in Ha.
  specialize (Ha (v, u) Hvu). simpl in Ha.
  rewrite !wrap_int32_small by lia. lia.
Qed.

Lemma run_mutation_own_bounds (second : Buffer) (m : mutation) (st st' : Buffer * rng) :
  mutation_fits m → own_bounds st.1 →
  run_mutation second m st = Some st' → own_bounds st'.1.
Proof.
  intros Hfit Hown Hrun.
  destruct m as [p|i p|t r p|[parent|]]; unfold run_mutation in Hrun.
  - destruct (patches_initialize _ _ _) as [f|] eqn:E; [simpl in Hrun|done].
    simplify_eq. simpl.
    destruct (patches_initialize_spec _ _ _ _ E) as (_ & I & _).
    unfold own_bounds. by rewrite I.
  - destruct (patches_propagate _ _ _ _) as [f|] eqn:E; [simpl in Hrun|done].
    simplify_eq. simpl.
    destruct (patches_propagate_refines _ _ _ _ _ E) as (_ & _ & _ & B). by apply B.
  - destruct (patches_search_refines _ _ _ _ _ _ _ Hrun) as (_ & _ & _ & B).
    by apply B.
  - destruct (merge_flow _ _ _) as [f|] eqn:E; [simpl in Hrun|done].
    simplify_eq. simpl. destruct Hfit as (Hp & H0 & H1).
    apply merge_flow_indices in E as (Hz & _).
    unfold own_bounds. by eapply zoom2_doubled_within.
  - simpl in Hrun. by simplify_eq.
Qed.

(** X17. After every call that changes a field ([patches_initialize],
    [patches_propagate], [patches_search], [merge_flow]) every stored index
    lies within the bounds of the field's own shape: that is what the
    candidates are clamped to. These are the bounds of the opposing field
    when the two fields have the same shape. *)
Theorem stored_indices_stay_in_own_bounds (second : Buffer) (ms : list mutation)
    (st st' : Buffer * rng) :
  Forall mutation_fits ms →
  own_bounds st.1 →
  run_mutations second ms st = Some st' →
  own_bounds st'.1
  ∧ (shape0 (indices second) = shape0 (indices st'.1) →
     shape1 (indices second) = shape1 (indices st'.1) →
     other_bounds st'.1 second).
Proof.
  intros Hms Hown Hrun.
  assert (own_bounds st'.1) as Hown'.
  { revert Hown Hrun. unfold run_mutations.
    apply (for_each_preserves (fun s : Buffer * rng => own_bounds s.1)).
    intros m s s' Hm Hs Hstep. rewrite Forall_forall in Hms.
    by eapply run_mutation_own_bounds; [apply Hms| |]. }
  split; [done|]. intros E0 E1. unfold other_bounds. by rewrite E0, E1.
Qed.

(** ** The refinement loop *)

(** C2, as the code has it. An odd iteration of the refinement loop calls
    [patches_search] with [times = r // 2], where [r] is the radius of the
    level when that is positive and 12 otherwise; this is
    [max(radius, 12) / 2] when the radius is not positive or at least 12. *)
Theorem odd_iteration_search_times (second : Buffer) (i : Z) (st : Buffer * rng) :
  i mod 2 = 1 →
  flow_iteration second i st
  = patches_search st.1 second
      (if 0 <? radius st.1 then radius st.1 / 2 else 6)
      (radius st.1) (padding st.1) st.2
  ∧ (radius st.1 ≤ 0 ∨ 12 ≤ radius st.1 →
     search_times (radius st.1) = Z.max (radius st.1) 12 / 2).
Proof.
  intros Hi. split.
  - unfold flow_iteration, search_times. rewrite Hi. simpl.
    by destruct (0 <? radius st.1).
  - intros Hr. unfold search_times.
    destruct (0 <? radius st.1) eqn:E.
    + by rewrite Z.max_l by lia.
    + by rewrite Z.max_r by lia.
Qed.

(** ** The global search *)

(** With a radius that is not positive the candidate is made of two draws,
    one in [[0, h)] and one in [[0, w)], whatever index is stored. *)
Lemma search_candidate_global (h w : nat) (radius : Z) (vu : option (Z * Z)) (g : rng) :
  radius ≤ 0 → (0 < h)%nat → (0 < w)%nat →
  search_candidate h w radius vu g
  = Some (entropy g (drawn g) mod Z.of_nat h,
          entropy g (S (drawn g)) mod Z.of_nat w,
          MkRng (entropy g) (S (S (drawn g)))).
Proof.
  intros Hr Hh Hw. unfold search_candidate, randint.
  destruct (0 <? radius) eqn:E; [lia|].
  destruct (0 <? Z.of_nat h) eqn:E0; [|lia]. simpl.
  destruct (0 <? Z.of_nat w) eqn:E1; [|lia]. simpl.
  by rewrite !Z.add_0_l, !Z.sub_0_r.
Qed.

Lemma elem_of_list_prod {A B} (l : list A) (k : list B) (ab : A * B) :
  ab ∈ list_prod l k ↔ ab.1 ∈ l ∧ ab.2 ∈ k.
Proof. rewrite !list_elem_of_In. destruct ab. apply in_prod_iff. Qed.

Lemma NoDup_list_prod {A B} (l : list A) (k : list B) :
  NoDup l → NoDup k → NoDup (list_prod l k).
Proof.
  intros Hl Hk. induction Hl as [|a l Ha Hl IH]; simpl; [constructor|].
  apply NoDup_app. split; [|split; [|done]].
  - change (List.map (fun b => (a, b)) k) with ((fun b => (a, b)) <$> k).
    apply NoDup_fmap_2; [|done]. by intros b1 b2 [= ->].
  - intros [a' b'] Hin [Ha' _]%elem_of_list_prod.
    change (List.map (fun b => (a, b)) k) with ((fun b => (a, b)) <$> k) in Hin.
    apply list_elem_of_fmap in Hin as (b & [= -> ->] & Hb). by apply Ha.
Qed.

(** C4, as the code has it. With [radius <= 0] the candidate of every repeat
    of the search is drawn over the whole extent of the field's own shape,
    whatever the stored index: each coordinate is one [randint] over its own
    axis, every draw is a cell of that extent, and over one period of the
    entropy every cell of it is drawn exactly once. *)
Theorem global_search_samples_own_extent (first : Buffer) (radius y x : Z) :
  let h := shape0 (indices first) in
  let w := shape1 (indices first) in
  let candidate g := search_candidate h w radius (get2 (indices first) y x) g in
  let cells := list_prod (py_range h) (py_range w) in
  radius ≤ 0 → (0 < h)%nat → (0 < w)%nat →
  (∀ g, ∃ v u g', candidate g = Some (v, u, g')
                  ∧ 0 ≤ v < Z.of_nat h ∧ 0 ≤ u < Z.of_nat w
                  ∧ v = entropy g (drawn g) mod Z.of_nat h
                  ∧ u = entropy g (S (drawn g)) mod Z.of_nat w)
  ∧ (fun e : Z * Z => fst <$> candidate (two_draws e.1 e.2)) <$> cells
    = Some <$> cells
  ∧ NoDup cells.
Proof.
  intros h w candidate cells Hr Hh Hw. split; [|split].
  - intros g. unfold candidate.
    rewrite search_candidate_global by done.
    eexists _, _, _. split; [reflexivity|].
    pose proof (Z.mod_pos_bound (entropy g (drawn g)) (Z.of_nat h)).
    pose proof (Z.mod_pos_bound (entropy g (S (drawn g))) (Z.of_nat w)).
    repeat split; try reflexivity; lia.
  - apply list_fmap_ext. intros _ [e1 e2] He%list_elem_of_lookup_2.
    apply elem_of_list_prod in He as [H1%elem_of_py_range H2%elem_of_py_range].
    unfold candidate. rewrite search_candidate_global by done. simpl in *.
    by rewrite !Z.mod_small by lia.
  - apply NoDup_list_prod; apply NoDup_seqZ.
Qed.

(** ** Normalisation *)

Lemma div_by_zero (x z : float32) :
  F32.is_zero z = true →
  (F32.is_zero x = true → F32.div x z = F32.nan)
  ∧ (F32.is_nan (F32.div x z) = true ∨ F32.is_inf (F32.div x z) = true).
Proof.
  destruct z as [sz| | |]; try done. intros _.
  destruct x as [sx|sx| |sx mx ex]; simpl; split; try done; auto.
Qed.

(** C5, as the code has it. A descriptor whose norm is exactly zero is divided
    by zero: the division is carried out without raising, every component
    that is zero becomes NaN and every other component becomes NaN or an
    infinity, so no component of the stored descriptor is finite. *)
Theorem zero_norm_descriptor_not_finite (d : list float32) :
  F32.is_zero (patch_norm d) = true →
  length (normalize_descriptor d) = length d
  ∧ ∀ i x, d !! i = Some x →
      ∃ c, normalize_descriptor d !! i = Some c
           ∧ c = F32.div x (patch_norm d)
           ∧ (F32.is_zero x = true → c = F32.nan)
           ∧ (F32.is_nan c = true ∨ F32.is_inf c = true).
Proof.
  intros Hz. unfold normalize_descriptor. split; [apply length_fmap|].
  intros i x Hx. exists (F32.div x (patch_norm d)).
  rewrite list_lookup_fmap, Hx. simpl. split; [done|]. split; [done|].
  by apply div_by_zero.
Qed.

(** ** Merging the parent level *)

(** Zooming an axis of [n] cells to [2n] cells reads the cell [o // 2]. *)
Lemma zoom_source_double (n : nat) (o : Z) :
  0 ≤ o < 2 * Z.of_nat n → zoom_source n (2 * n) o = o / 2.
Proof.
  intros Ho. unfold zoom_source.
  destruct (Z.of_nat (2 * n) - 1 =? 0) eqn:E; [apply Z.eqb_eq in E; lia|].
  replace (Z.of_nat (2 * n)) with (2 * Z.of_nat n) by lia.
  symmetry.
  pose proof (Z.div_mod o 2 ltac:(lia)) as Hdiv.
  pose proof (Z.mod_pos_bound o 2 ltac:(lia)) as Hmod.
  apply (Z.div_unique _ _ _
           (- 2 * (o / 2) + 2 * (o mod 2) * (Z.of_nat n - 1) + 2 * Z.of_nat n - 1)).
  - left. nia.
  - nia.
Qed.

(** Doubling and zooming a field that holds the identity correspondence. *)
Lemma zoom2_doubled_identity (a : ndarray (Z * Z)) :
  Z.of_nat (shape0 a) ≤ 2 ^ 30 → Z.of_nat (shape1 a) ≤ 2 ^ 30 →
  (∀ j i, 0 ≤ j < Z.of_nat (shape0 a) → 0 ≤ i < Z.of_nat (shape1 a) →
          get2 a j i = Some (j, i)) →
  zoom2 (double_indices a)
  = Some (tabulate2 (2 * shape0 a) (2 * shape1 a)
            (fun y x => (2 * (y / 2), 2 * (x / 2)))).
Proof.
  intros H0 H1 Hid. unfold zoom2. apply tabulate2M_Some.
  intros y x Hy Hx. unfold double_indices at 1. simpl.
  rewrite !zoom_source_double by lia.
  unfold double_indices. rewrite get2_map_cells.
  assert (0 ≤ y / 2 < Z.of_nat (shape0 a)) as Hy2.
  { split; [apply Z.div_pos; lia|apply Z.div_lt_upper_bound; lia]. }
  assert (0 ≤ x / 2 < Z.of_nat (shape1 a)) as Hx2.
  { split; [apply Z.div_pos; lia|apply Z.div_lt_upper_bound; lia]. }
  rewrite Hid by done. simpl.
  rewrite !wrap_int32_small by lia. do 2 f_equal; lia.
Qed.

(** C9. [merge_flow] returns at once, changing nothing, when there is no
    parent level. When the field of the parent level holds the identity
    correspondence, the upsampled indices are [(2*(y//2), 2*(x//2))] at every
    cell [(y, x)], and these are the indices of the child after the merge. *)
Theorem merge_seeds_doubled_parent_cells (this other : Buffer) :
  merge_flow this None other = Some this
  ∧ ∀ parent : Buffer,
      Z.of_nat (shape0 (indices parent)) ≤ 2 ^ 30 →
      Z.of_nat (shape1 (indices parent)) ≤ 2 ^ 30 →
      (∀ j i, 0 ≤ j < Z.of_nat (shape0 (indices parent)) →
              0 ≤ i < Z.of_nat (shape1 (indices parent)) →
              get2 (indices parent) j i = Some (j, i)) →
      zoom2 (double_indices (indices parent))
      = Some (tabulate2 (2 * shape0 (indices parent)) (2 * shape1 (indices parent))
                (fun y x => (2 * (y / 2), 2 * (x / 2))))
      ∧ ∀ this', merge_flow this (Some parent) other = Some this' →
          ∀ y x, 0 ≤ y < 2 * Z.of_nat (shape0 (indices parent)) →
                 0 ≤ x < 2 * Z.of_nat (shape1 (indices parent)) →
                 get2 (indices this') y x = Some (2 * (y / 2), 2 * (x / 2)).
Proof.
  split; [reflexivity|]. intros parent H0 H1 Hid.
  pose proof (zoom2_doubled_identity _ H0 H1 Hid) as Hz.
  split; [exact Hz|]. intros this' Hm y x Hy Hx.
  apply merge_flow_indices in Hm as (Hz' & _ & _).
  rewrite Hz in Hz'. injection Hz' as <-.
  apply (get2_tabulate2 _ _ (fun y x => (2 * (y / 2), 2 * (x / 2)))); lia.
Qed.

(** ** The scan of a propagation pass *)





(** ** Propagation never leaves the field *)

Lemma descriptor_length (d : nat) (bank : ndarray (list float32)) y x v :
  descriptors_sized d bank → get2 bank y x = Some v → length v = d.
Proof.
  intros Hd Hg. destruct (get2_elem_of _ _ _ _ Hg) as (r & Hr & Hv).
  unfold descriptors_sized in Hd. rewrite Forall_forall in Hd.
  specialize (Hd r Hr). rewrite Forall_forall in Hd. by apply Hd.
Qed.

Lemma patches_score_total (h w d : nat) (first second : Buffer) y x v u padding :
  field_ok h w d first → bank_covers h w d second →
  0 ≤ y < Z.of_nat h → 0 ≤ x < Z.of_nat w →
  0 ≤ v < Z.of_nat h → 0 ≤ u < Z.of_nat w →
  is_Some (patches_score first y x second v u padding).
Proof.
  intros ((_ & _ & _ & _ & _ & _ & Wo & Ho0 & Ho1 & Wr & Hr0 & Hr1) & Do & Dr).
  intros (Wo2 & Ho2 & Ho3 & Wr2 & Hr2 & Hr3 & Do2 & Dr2) Hy Hx Hv Hu.
  unfold patches_score.
  destruct (get2_in_range (patches_repro first) y x) as [a Ha]; [done|lia..|].
  destruct (get2_in_range (patches_orign second) v u) as [b Hb]; [done|lia..|].
  destruct (get2_in_range (patches_orign first) y x) as [c Hc]; [done|lia..|].
  destruct (get2_in_range (patches_repro second) v u) as [e He]; [done|lia..|].
  rewrite Ha, Hb. simpl.
  rewrite tensor_mul_same_length
    by (rewrite (descriptor_length _ _ _ _ _ Dr Ha);
        by rewrite (descriptor_length _ _ _ _ _ Do2 Hb)).
  simpl. rewrite Hc, He. simpl.
  rewrite tensor_mul_same_length
    by (rewrite (descriptor_length _ _ _ _ _ Do Hc);
        by rewrite (descriptor_length _ _ _ _ _ Dr2 He)).
  simpl. eauto.
Qed.

Lemma accept_if_better_total (h w d : nat) (first : Buffer) y x score v u :
  field_ok h w d first →
  0 ≤ y < Z.of_nat h → 0 ≤ x < Z.of_nat w →
  ∃ first', accept_if_better first y x score v u = Some first'
            ∧ field_ok h w d first'.
Proof.
  intros Hok Hy Hx. pose proof Hok as Hok0.
  destruct Hok as ((Wi & Hi0 & Hi1 & Ws & Hs0 & Hs1 & Wo & Ho0 & Ho1 & Wr & Hr0 & Hr1)
                   & Do & Dr).
  unfold accept_if_better.
  destruct (get2_in_range (scores first) y x) as [cur Hcur]; [done|lia..|].
  rewrite Hcur. simpl. destruct (F32.gtb score cur); [|eauto].
  destruct (set2_is_Some (scores first) y x score) as [sc Hsc]; [eauto|].
  destruct (set2_is_Some (indices first) y x (v, u)) as [ix Hix];
    [apply get2_in_range; [done|lia..]|].
  rewrite Hsc, Hix. simpl. eexists. split; [done|].
  destruct (set2_shape _ _ _ _ _ Hsc) as [E0 E1].
  destruct (set2_shape _ _ _ _ _ Hix) as [E2 E3].
  split; [|done]. unfold field_shaped. simpl.
  repeat split; try done; try congruence;
    try (eapply set2_well_shaped; [eassumption|]; apply Wi || apply Ws);
    apply Wo || apply Wr.
Qed.

Lemma propagate_step_total (h w d : nat) (first second : Buffer) padding y x offset :
  field_ok h w d first → bank_covers h w d second →
  0 ≤ y < Z.of_nat h → 0 ≤ x < Z.of_nat w →
  ∃ first', propagate_step second padding y x offset first = Some first'
            ∧ field_ok h w d first'.
Proof.
  intros Hok Hcov Hy Hx. pose proof Hok as ((Wi & Hi0 & Hi1 & _) & _).
  unfold propagate_step. rewrite Hi0, Hi1.
  destruct (propagate_neighbour_in_range h w y x offset) as [Hn0 Hn1]; [lia..|].
  destruct (get2_in_range (indices first) (propagate_neighbour h w y x offset).1
              (propagate_neighbour h w y x offset).2) as [nvu Hnvu];
    [done|lia..|].
  rewrite Hnvu. cbn [mbind option_bind].
  destruct (propagate_candidate_in_range h w nvu offset) as [Hc0 Hc1]; [lia..|].
  destruct (patches_score_total h w d first second y x
              (propagate_candidate h w nvu offset).1
              (propagate_candidate h w nvu offset).2 padding) as [score Hs];
    [done..|].
  rewrite Hs. cbn [mbind option_bind]. by apply accept_if_better_total.
Qed.

(** On well-formed buffers a propagation pass returns: none of its accesses
    falls outside an array. *)
Lemma patches_propagate_total (h w d : nat) (first second : Buffer) i padding :
  field_ok h w d first → bank_covers h w d second →
  ∃ first', patches_propagate first second i padding = Some first'
            ∧ field_ok h w d first'.
Proof.
  intros Hok Hcov. pose proof Hok as ((_ & Hi0 & Hi1 & _) & _).
  unfold patches_propagate. rewrite Hi0, Hi1.
  apply (for_each_total (field_ok h w d)); [|done].
  intros y s Hy%elem_of_propagate_scan Hs.
  apply (for_each_total (field_ok h w d)); [|done].
  clear s Hs. intros x s Hx%elem_of_propagate_scan Hs.
  apply (for_each_total (field_ok h w d)); [|done].
  clear s Hs. intros offset s _ Hs.
  by apply propagate_step_total.
Qed.


Lemma mapM_lookup {A B} (f : A → option B) (l : list A) (k : list B) (i : nat) a :
  mapM f l = Some k → l !! i = Some a → k !! i = f a.
Proof.
  intros H Ha. apply mapM_Some in H.
  destruct (Forall2_lookup_l _ _ _ _ _ H Ha) as (b & Hb & Hf). by rewrite Hb.
Qed.

Lemma py_range_lookup (n : nat) (y : Z) :
  0 ≤ y < Z.of_nat n → py_range n !! Z.to_nat y = Some y.
Proof.
  intros Hy. unfold py_range. rewrite lookup_seqZ.
  split; [lia|lia].
Qed.

(** A cell of an array given cell by cell. *)
Lemma get2_tabulate2M {A} (h w : nat) (f : Z → Z → option A) a y x :
  tabulate2M h w f = Some a →
  0 ≤ y < Z.of_nat h → 0 ≤ x < Z.of_nat w →
  get2 a y x = f y x.
Proof.
  unfold tabulate2M. intros H Hy Hx.
  destruct (mapM _ (py_range h)) as [rs|] eqn:E; [simpl in H|done].
  injection H as <-. unfold get2. simpl.
  rewrite !py_index_in_range by done. simpl.
  apply mapM_Some in E.
  destruct (Forall2_lookup_l _ _ _ _ _ E (py_range_lookup h y Hy))
    as (r & -> & Hr).
  simpl. by rewrite (mapM_lookup _ _ _ _ _ Hr (py_range_lookup w x Hx)).
Qed.

Lemma half_in_range (n : nat) (o : Z) :
  0 ≤ o < Z.of_nat (2 * n) → 0 ≤ o / 2 < Z.of_nat n.
Proof.
  intros Ho. split; [apply Z.div_pos; lia|apply Z.div_lt_upper_bound; lia].
Qed.

(** ** What a lookup that returns tells about its coordinates *)

Lemma py_index_Some_range (n : nat) (i : Z) (j : nat) :
  py_index n i = Some j → - Z.of_nat n ≤ i < Z.of_nat n.
Proof.
  unfold py_index. intros H.
  destruct ((0 <=? i) && (i <? Z.of_nat n)) eqn:E1.
  - apply andb_true_iff in E1 as [?%Z.leb_le ?%Z.ltb_lt]. lia.
  - destruct ((- Z.of_nat n <=? i) && (i <? 0)) eqn:E2; [|done].
    apply andb_true_iff in E2 as [?%Z.leb_le ?%Z.ltb_lt]. lia.
Qed.

Lemma get2_Some_range {A} (a : ndarray A) (y x : Z) (c : A) :
  get2 a y x = Some c →
  - Z.of_nat (shape0 a) ≤ y < Z.of_nat (shape0 a)
  ∧ - Z.of_nat (shape1 a) ≤ x < Z.of_nat (shape1 a).
Proof.
  unfold get2. intros H.
  destruct (py_index (shape0 a) y) as [j|] eqn:Ej; [simpl in H|done].
  destruct (py_index (shape1 a) x) as [i|] eqn:Ei; [simpl in H|done].
  split; by eapply py_index_Some_range.
Qed.

(** Every element of a well-shaped array is a cell of it. *)
Lemma rows_get2 {A} (a : ndarray A) (r : list A) (c : A) :
  well_shaped a → r ∈ rows a → c ∈ r →
  ∃ y x, 0 ≤ y < Z.of_nat (shape0 a) ∧ 0 ≤ x < Z.of_nat (shape1 a)
         ∧ get2 a y x = Some c.
Proof.
  intros [Hl Hr] Hin Hc.
  apply list_elem_of_lookup in Hin as [j Hj].
  apply list_elem_of_lookup in Hc as [i Hi].
  pose proof (lookup_lt_Some _ _ _ Hj) as Hjl.
  pose proof (lookup_lt_Some _ _ _ Hi) as Hil.
  rewrite Forall_forall in Hr.
  rewrite (Hr r) in Hil by (by eapply list_elem_of_lookup_2).
  exists (Z.of_nat j), (Z.of_nat i). split; [lia|]. split; [lia|].
  unfold get2. rewrite !py_index_in_range by lia. simpl.
  rewrite !Nat2Z.id, Hj. simpl. exact Hi.
Qed.

(** A score that was computed looked the candidate up in the opposing bank of
    original patches. *)
Lemma scored_within_bank (first second : Buffer) y x v u padding score :
  patches_score first y x second v u padding = Some score →
  0 ≤ v → 0 ≤ u →
  v < Z.of_nat (shape0 (patches_orign second))
  ∧ u < Z.of_nat (shape1 (patches_orign second)).
Proof.
  unfold patches_score. intros H Hv Hu.
  destruct (get2 (patches_repro first) y x) as [a|]; [simpl in H|done].
  destruct (get2 (patches_orign second) v u) as [b|] eqn:Eb; [|done].
  apply get2_Some_range in Eb. lia.
Qed.

(** ** Properties that the acceptance keeps

    A property of a field that is kept whenever a candidate with
    non-negative coordinates whose score was computed is offered to
    [accept_if_better] is kept by propagation and search; one that is kept
    when a score is stored is kept by the initialisation. *)

Section keeps.

Variable second : Buffer.
Variable I : Buffer → Prop.
Hypothesis accept_keeps :
  ∀ s s' y x v u score p,
    I s → 0 ≤ v → 0 ≤ u →
    patches_score s y x second v u p = Some score →
    accept_if_better s y x score v u = Some s' → I s'.

Lemma patches_propagate_keeps (first first' : Buffer) i padding :
  I first → patches_propagate first second i padding = Some first' → I first'.
Proof.
  intros HI Hrun.
  cut (refined_from second first first' ∧ I first'); [by intros [_ ?]|].
  revert Hrun. unfold patches_propagate.
  set (J := fun s : Buffer => refined_from second first s ∧ I s).
  apply (for_each_preserves J); [|split; [apply refined_from_refl|done]].
  intros y s s' Hy%elem_of_propagate_scan Hs.
  apply (for_each_preserves J); [|done].
  clear s s' Hs. intros x s s' Hx%elem_of_propagate_scan Hs.
  apply (for_each_preserves J); [|done].
  clear s s' Hs. intros offset s s' _ [Hs HIs] Hstep.
  pose proof Hs as ((_ & _ & E0 & E1 & _) & _).
  split.
  - eapply refined_from_trans; [exact Hs|].
    eapply propagate_step_refines; [| |exact Hstep]; congruence.
  - unfold propagate_step in Hstep.
    destruct (get2 (indices s) _ _) as [nvu|]; [cbn [mbind option_bind] in Hstep|done].
    destruct (patches_score _ _ _ _ _ _ _) as [score|] eqn:Es;
      [cbn [mbind option_bind] in Hstep|done].
    destruct (propagate_candidate_in_range (shape0 (indices s)) (shape1 (indices s))
                nvu offset) as [Hv Hu]; [lia..|].
    eapply accept_keeps; [exact HIs| | |exact Es|exact Hstep]; lia.
Qed.

Lemma patches_search_keeps (first : Buffer) times rad padding g st' :
  I first → patches_search first second times rad padding g = Some st' → I st'.1.
Proof.
  intros HI Hrun.
  cut (refined_from second first st'.1 ∧ I st'.1); [by intros [_ ?]|].
  revert Hrun. unfold patches_search.
  set (J := fun st : Buffer * rng => refined_from second first st.1 ∧ I st.1).
  apply (for_each_preserves J); [|split; [apply refined_from_refl|done]].
  intros y s s' Hy%elem_of_py_range Hs.
  apply (for_each_preserves J); [|done].
  clear s s' Hs. intros x s s' Hx%elem_of_py_range Hs.
  apply (for_each_preserves J); [|done].
  clear s s' Hs. intros k [s g0] s' _ [Hs HIs] Hstep. simpl in Hs, HIs.
  pose proof Hs as ((_ & _ & E0 & E1 & _) & _).
  split.
  - eapply refined_from_trans; [exact Hs|].
    eapply search_step_refines; [| |exact Hstep]; congruence.
  - unfold search_step in Hstep. cbn [fst snd] in Hstep.
    destruct (search_candidate _ _ _ _ _) as [[[v u] g1]|] eqn:Ec;
      [cbn [mbind option_bind] in Hstep|done].
    destruct (patches_score s y x second v u padding) as [score|] eqn:Es;
      [cbn [mbind option_bind] in Hstep|done].
    destruct (accept_if_better s y x score v u) as [f'|] eqn:Ea;
      [cbn [mbind option_bind] in Hstep|done].
    injection Hstep as <-. cbn [fst].
    destruct (search_candidate_in_range _ _ _ _ _ _ _ _ Ec) as [Hv Hu]; [lia..|].
    eapply accept_keeps; [exact HIs| | |exact Es|exact Ea]; lia.
Qed.

Hypothesis store_keeps :
  ∀ s y x v sc, I s → set2 (scores s) y x v = Some sc → I (with_scores s sc).

Lemma patches_initialize_keeps (first first' : Buffer) padding :
  I first → patches_initialize first second padding = Some first' → I first'.
Proof.
  intros HI. unfold patches_initialize.
  apply (for_each_preserves I); [|done].
  intros y s s' _ Hs. apply (for_each_preserves I); [|done].
  clear s s' Hs. intros x s s' _ Hs. unfold initialize_cell. intros Hc.
  destruct (get2 (indices s) y x) as [[v u]|]; [simpl in Hc|done].
  destruct (patches_score _ _ _ _ _ _ _) as [sc|]; [simpl in Hc|done].
  destruct (set2 _ _ _ _) as [arr|] eqn:Ea; [simpl in Hc|done].
  injection Hc as <-. by eapply store_keeps.
Qed.


End keeps.

(** The acceptance keeps the shape of the field. *)
Lemma accept_keeps_well_shaped (s s' : Buffer) y x score v u :
  well_shaped (indices s) → accept_if_better s y x score v u = Some s' →
  well_shaped (indices s').
Proof.
  intros Hw Ha.
  apply accept_if_better_cases in Ha
    as [->|(cur & sc & ix & _ & _ & _ & Hix & ->)]; [done|].
  simpl. by eapply set2_well_shaped.
Qed.



Lemma store_keeps_field_ok (h w d : nat) (s : Buffer) y x v sc :
  field_ok h w d s → set2 (scores s) y x v = Some sc →
  field_ok h w d (with_scores s sc).
Proof.
  intros ((Wi & Hi0 & Hi1 & Ws & Hs0 & Hs1 & Wo & Ho0 & Ho1 & Wr & Hr0 & Hr1)
          & Do & Dr) Hsc.
  destruct (set2_shape _ _ _ _ _ Hsc) as [E0 E1].
  split; [|done]. unfold field_shaped. simpl.
  repeat split; try done; try congruence;
    try (eapply set2_well_shaped; [eassumption|]; apply Ws);
    apply Wi || apply Wo || apply Wr.
Qed.

(** A candidate that was scored lies within the opposing bank, hence within
    the opposing field when that bank is no larger than the field. *)
Lemma accept_keeps_other_bounds (second s s' : Buffer) y x v u score p :
  (shape0 (patches_orign second) ≤ shape0 (indices second))%nat →
  (shape1 (patches_orign second) ≤ shape1 (indices second))%nat →
  other_bounds s second → 0 ≤ v → 0 ≤ u →
  patches_score s y x second v u p = Some score →
  accept_if_better s y x score v u = Some s' →
  other_bounds s' second.
Proof.
  intros B0 B1 Hb Hv Hu Hscore Ha.
  apply accept_if_better_cases in Ha
    as [->|(cur & sc & ix & _ & _ & _ & Hix & ->)]; [done|].
  destruct (scored_within_bank _ _ _ _ _ _ _ _ Hscore Hv Hu) as [Hv' Hu'].
  unfold other_bounds. simpl.
  eapply set2_indices_within; [exact Hix| | |exact Hb]; lia.
Qed.

Lemma index_in_own_bounds (first : Buffer) y x v u :
  own_bounds first → get2 (indices first) y x = Some (v, u) →
  0 ≤ v < Z.of_nat (shape0 (indices first))
  ∧ 0 ≤ u < Z.of_nat (shape1 (indices first)).
Proof.
  intros Hown Hg. destruct (get2_elem_of _ _ _ _ Hg) as (r & Hr & Hc).
  unfold own_bounds, indices_within in Hown. rewrite Forall_forall in Hown.
  specialize (Hown r Hr). rewrite Forall_forall in Hown.
  apply (Hown (v, u) Hc).
Qed.

(** ** The indices stay within the opposing field *)

Lemma accept_keeps_buffer_shaped (s s' : Buffer) y x score v u :
  buffer_shaped s → accept_if_better s y x score v u = Some s' →
  buffer_shaped s'.
Proof.
  intros (Wi & I0 & I1 & P0 & P1 & Hf) Ha.
  apply accept_if_better_cases in Ha
    as [->|(cur & sc & ix & _ & _ & _ & Hix & ->)]; [done|].
  destruct (set2_shape _ _ _ _ _ Hix) as [E0 E1].
  unfold buffer_shaped. simpl.
  split; [by eapply set2_well_shaped|]. repeat split; try done; congruence.
Qed.

Lemma blend_features_channels (this : features) (w : ndarray float32)
    (warpd : ndarray (list float32)) (repro : features) :
  blend_features this w warpd = Some repro →
  length (channels repro) = length (channels this)
  ∧ size2 repro = size2 this ∧ size3 repro = size3 this.
Proof.
  unfold blend_features. intros H.
  destruct (mapM _ _) as [chs|] eqn:E; [cbn [mbind option_bind] in H|done].
  injection H as <-. simpl. split; [|done].
  apply mapM_Some, Forall2_length in E. by rewrite <- E, length_imap.
Qed.

Lemma extract_patches_channels (f : features) (p : Z) (a : ndarray (list float32)) :
  extract_patches f p = Some a → channels f ≠ [].
Proof.
  unfold extract_patches. intros H Hnil. rewrite Hnil in H. simpl in H.
  destruct ((p <? 0) || Nat.eqb (size2 f) 0 || Nat.eqb (size3 f) 0); [done|].
  by destruct (negb (all_finite f)).
Qed.

(** The initialisation scores every index of the field, so it returns only
    when they all lie within the opposing bank. *)
Lemma patches_initialize_other_bounds (second first first' : Buffer) padding :
  buffer_shaped second → well_shaped (indices first) → own_bounds first →
  patches_initialize first second padding = Some first' →
  other_bounds first' second.
Proof.
  intros (_ & S0 & S1 & P0 & P1 & _) Hw Hown H.
  destruct (patches_initialize_spec _ _ _ _ H) as (_ & Hi & Hc).
  unfold other_bounds, indices_within. rewrite Hi.
  apply Forall_forall. intros r Hr. apply Forall_forall. intros [v u] Hvu.
  destruct (rows_get2 _ _ _ Hw Hr Hvu) as (y & x & Hy & Hx & Hg).
  destruct (Hc y x Hy Hx) as (s & v' & u' & _ & Hg' & Hscore).
  rewrite Hi, Hg in Hg'. injection Hg' as <- <-.
  destruct (index_in_own_bounds first y x v u Hown Hg) as [Hv Hu].
  destruct (scored_within_bank _ _ _ _ _ _ _ _ (Hscore 0)) as [Hv' Hu']; [lia..|].
  simpl. lia.
Qed.

(** The merge reads the features of the other image at every index it
    stores, so it returns only when they all lie within that feature map. *)
Lemma merge_flow_other_bounds (this parent other this' : Buffer) :
  buffer_shaped this → buffer_shaped other →
  own_bounds parent →
  Z.of_nat (shape0 (indices parent)) ≤ 2 ^ 30 →
  Z.of_nat (shape1 (indices parent)) ≤ 2 ^ 30 →
  merge_flow this (Some parent) other = Some this' →
  other_bounds this' other ∧ buffer_shaped this'.
Proof.
  intros (Wi & I0 & I1 & P0 & P1 & Hf) (_ & O0 & O1 & _ & _ & Of) Hown B0 B1.
  unfold merge_flow. intros H.
  destruct (zoom2 _) as [zoomed|] eqn:Ez; [cbn [mbind option_bind] in H|done].
  case_decide as Hshape; [|done]. destruct Hshape as [E0 E1].
  cbn [features_orign with_indices weights padding] in H.
  destruct (warp_features _ _ _) as [warpd|] eqn:Ew;
    [cbn [mbind option_bind] in H|done].
  destruct (blend_features _ _ _) as [repro|] eqn:Eb;
    [cbn [mbind option_bind] in H|done].
  destruct (extract_patches _ _) as [patches|] eqn:Ee;
    [cbn [mbind option_bind] in H|done].
  injection H as <-.
  pose proof (tabulate2M_well_shaped _ _ _ _ Ez) as Wz.
  pose proof (zoom2_doubled_within _ _ Ez Hown B0 B1) as Hz.
  split.
  2:{ unfold buffer_shaped. simpl. split; [exact Wz|].
      split; [congruence|]. split; [congruence|]. done. }
  unfold other_bounds, indices_within. simpl.
  apply Forall_forall. intros r Hr. apply Forall_forall. intros [v u] Hvu.
  destruct (rows_get2 _ _ _ Wz Hr Hvu) as (y & x & Hy & Hx & Hg).
  assert (0 ≤ v ∧ 0 ≤ u) as [Hv Hu].
  { destruct (get2_elem_of _ _ _ _ Hg) as (r' & Hr' & Hc').
    unfold indices_within in Hz. rewrite Forall_forall in Hz.
    specialize (Hz r' Hr'). rewrite Forall_forall in Hz.
    specialize (Hz (v, u) Hc'). simpl in Hz. lia. }
  (* the cell of the warped features at (y, x) was computed *)
  unfold warp_features in Ew.
  pose proof (tabulate2M_well_shaped _ _ _ _ Ew) as Ww.
  destruct (tabulate2M_shape _ _ _ _ Ew) as [W0 W1].
  destruct (get2_in_range warpd y x) as [wv Hwv]; [done|lia..|].
  rewrite (get2_tabulate2M _ _ _ _ _ _ Ew) in Hwv by lia.
  rewrite Hg in Hwv. cbn [mbind option_bind] in Hwv.
  destruct (mapM _ (channels (features_orign other))) as [vec|] eqn:Ev;
    [cbn [mbind option_bind] in Hwv|done].
  (* there is a channel to read *)
  apply extract_patches_channels in Ee.
  apply blend_features_channels in Eb as (Ec & _).
  assert (vec ≠ []) as Hvec.
  { intros ->. simpl in Hwv. case_decide as Hl; [|done].
    destruct (channels repro); [done|]. simpl in Ec. simpl in Hl. lia. }
  apply mapM_Some in Ev. unfold features_shaped in Of.
  destruct (channels (features_orign other)) as [|ch0 chs].
  { apply Forall2_nil_inv_l in Ev. by subst. }
  apply Forall2_cons_inv_l in Ev as (e0 & vec' & Hch0 & _ & _).
  apply get2_Some_range in Hch0.
  apply Forall_cons in Of as [(_ & C0 & C1) _].
  simpl. lia.
Qed.

Lemma run_mutation_other_bounds (second : Buffer) (m : mutation)
    (st st' : Buffer * rng) :
  mutation_fits m → buffer_shaped second →
  buffer_shaped st.1 → own_bounds st.1 →
  run_mutation second m st = Some st' →
  buffer_shaped st'.1 ∧ own_bounds st'.1
  ∧ (seeds m ∨ other_bounds st.1 second → other_bounds st'.1 second).
Proof.
  intros Hfit Hs Hb Hown Hrun.
  split; [|split; [by eapply run_mutation_own_bounds|]].
  - destruct m as [p|i p|t r p|[parent|]]; unfold run_mutation in Hrun.
    + destruct (patches_initialize _ _ _) as [f|] eqn:E; [simpl in Hrun|done].
      simplify_eq. simpl. revert E.
      apply (patches_initialize_keeps second buffer_shaped); [|done].
      by intros s y x v sc Hbs _.
    + destruct (patches_propagate _ _ _ _) as [f|] eqn:E; [simpl in Hrun|done].
      simplify_eq. simpl. revert E.
      apply (patches_propagate_keeps second buffer_shaped); [|done].
      intros s s' y x v u score p' Hbs _ _ _. by apply accept_keeps_buffer_shaped.
    + revert Hrun. apply (patches_search_keeps second buffer_shaped); [|done].
      intros s s' y x v u score p' Hbs _ _ _. by apply accept_keeps_buffer_shaped.
    + destruct (merge_flow _ _ _) as [f|] eqn:E; [simpl in Hrun|done].
      simplify_eq. simpl. destruct Hfit as (Hp & H0 & H1).
      by destruct (merge_flow_other_bounds _ _ _ _ Hb Hs Hp H0 H1 E) as [_ ?].
    + simpl in Hrun. by simplify_eq.
  - pose proof Hs as (_ & S0 & S1 & P0 & P1 & _).
    destruct m as [p|i p|t r p|[parent|]]; unfold run_mutation in Hrun;
      intros Hpre.
    + destruct (patches_initialize _ _ _) as [f|] eqn:E; [simpl in Hrun|done].
      simplify_eq. simpl.
      eapply patches_initialize_other_bounds; [done|apply Hb|done|exact E].
    + destruct Hpre as [[]|Hpre].
      destruct (patches_propagate _ _ _ _) as [f|] eqn:E; [simpl in Hrun|done].
      simplify_eq. simpl. revert E.
      apply (patches_propagate_keeps second (fun s => other_bounds s second));
        [|done].
      intros s s' y x v u score p'.
      apply accept_keeps_other_bounds; lia.
    + destruct Hpre as [[]|Hpre]. revert Hrun.
      apply (patches_search_keeps second (fun s => other_bounds s second));
        [|done].
      intros s s' y x v u score p'.
      apply accept_keeps_other_bounds; lia.
    + destruct (merge_flow _ _ _) as [f|] eqn:E; [simpl in Hrun|done].
      simplify_eq. simpl. destruct Hfit as (Hp & H0 & H1).
      by destruct (merge_flow_other_bounds _ _ _ _ Hb Hs Hp H0 H1 E) as [? _].
    + destruct Hpre as [[]|Hpre]. simpl in Hrun. by simplify_eq.
Qed.

(** C3. After every call that changes a field and returns
    ([patches_initialize], [patches_propagate], [patches_search],
    [merge_flow]) every stored index lies within the bounds of the opposing
    field, whatever the shapes of the two fields: an index is stored only
    after it was looked up in the opposing buffer, and a lookup outside it
    raises. This holds from the first initialisation or merge on (the calls
    that look every index up), or from the start when the indices lie within
    the opposing field then; the indices also stay within the field's own
    bounds. *)
Theorem stored_indices_stay_in_opposing_bounds (second : Buffer)
    (ms : list mutation) (st st' : Buffer * rng) :
  Forall mutation_fits ms →
  buffer_shaped second → buffer_shaped st.1 → own_bounds st.1 →
  other_bounds st.1 second ∨ Exists seeds ms →
  run_mutations second ms st = Some st' →
  other_bounds st'.1 second ∧ own_bounds st'.1.
Proof.
  intros Hms Hs. revert st. unfold run_mutations.
  induction ms as [|m ms IH]; intros st Hb Hown Hpre Hrun.
  - simpl in Hrun. simplify_eq. split; [|done].
    destruct Hpre as [Hpre|Hex]; [done|]. by apply Exists_nil in Hex.
  - apply Forall_cons in Hms as [Hm Hms]. simpl in Hrun.
    destruct (run_mutation second m st) as [s1|] eqn:E; [simpl in Hrun|done].
    destruct (run_mutation_other_bounds second m st s1 Hm Hs Hb Hown E)
      as (Hb1 & Hown1 & Hother).
    apply (IH Hms s1 Hb1 Hown1); [|done].
    destruct Hpre as [Hpre|Hex].
    + left. apply Hother. by right.
    + apply Exists_cons in Hex as [Hseed|Hex]; [|by right].
      left. apply Hother. by left.
Qed.

(** * Further properties of the code *)

(** ** The score is symmetric *)

Lemma F32_mul_comm (a b : float32) : F32.mul a b = F32.mul b a.
Proof.
  unfold F32.mul, SFmul.
  destruct a as [sa|sa| |sa ma ea], b as [sb|sb| |sb mb eb];
    try reflexivity; try (by rewrite xorb_comm).
  by rewrite xorb_comm, Pos.mul_comm, Z.add_comm.
Qed.

Lemma F32_add_comm (a b : float32) : F32.add a b = F32.add b a.
Proof.
  unfold F32.add, SFadd.
  destruct a as [sa|sa| |sa ma ea], b as [sb|sb| |sb mb eb];
    try reflexivity; try (by destruct sa, sb).
  cbv zeta. rewrite (Z.min_comm eb ea). f_equal. apply Z.add_comm.
Qed.

Lemma fmap_mul_comm (c : float32) (l : list float32) :
  F32.mul c <$> l = (fun x => F32.mul x c) <$> l.
Proof. apply list_fmap_ext. intros _ x _. apply F32_mul_comm. Qed.

Lemma tensor_mul_comm (a b : list float32) : tensor_mul a b = tensor_mul b a.
Proof.
  unfold tensor_mul.
  destruct (decide (length a = length b)) as [E|E].
  - rewrite decide_True by done. f_equal.
    revert b E. induction a as [|x a IH]; intros [|y b] E; simpl in *; try done.
    rewrite F32_mul_comm. f_equal. apply IH. lia.
  - rewrite decide_False by done.
    destruct a as [|a0 [|a1 a]], b as [|b0 [|b1 b]]; try done.
    + by rewrite fmap_mul_comm.
    + by rewrite fmap_mul_comm.
Qed.

(** X1. The score of a cell of [first] against a cell of [second] is the
    score of that cell of [second] against that cell of [first], exactly: the
    two products of [patches_score] trade places. *)
Theorem patches_score_symmetric (first second : Buffer) (y x v u p1 p2 : Z) :
  patches_score first y x second v u p1 = patches_score second v u first y x p2.
Proof.
  unfold patches_score.
  destruct (get2 (patches_repro first) y x) as [a|],
           (get2 (patches_orign second) v u) as [b|],
           (get2 (patches_orign first) y x) as [c|],
           (get2 (patches_repro second) v u) as [d|];
    cbn [mbind option_bind].
  1:{ rewrite (tensor_mul_comm d c), (tensor_mul_comm b a).
      destruct (tensor_mul a b) as [ab|], (tensor_mul c d) as [cd|];
        cbn [mbind option_bind]; try done.
      by rewrite F32_add_comm. }
  all: repeat match goal with
         | |- context [tensor_mul ?p ?q] =>
             destruct (tensor_mul p q); cbn [mbind option_bind]
         end; done.
Qed.

(** ** An index changes only with a strictly better score *)

Lemma cells_kept_refl (first : Buffer) : cells_kept_or_improved first first.
Proof. intros y x _ _. by left. Qed.

Lemma cells_kept_trans (b1 b2 b3 : Buffer) :
  cells_kept_or_improved b1 b2 → cells_kept_or_improved b2 b3 →
  cells_kept_or_improved b1 b3.
Proof.
  intros H12 H23 y x Hy Hx.
  destruct (H12 y x Hy Hx) as [[S12 I12]|(s1 & s2 & E1 & E2 & L12)],
           (H23 y x Hy Hx) as [[S23 I23]|(s2' & s3 & E2' & E3 & L23)].
  - left. split; congruence.
  - right. exists s2', s3. repeat split; try done. congruence.
  - right. exists s1, s2. repeat split; try done. congruence.
  - right. exists s1, s3. repeat split; try done.
    assert (s2' = s2) as -> by congruence.
    by eapply F32_ltb_trans.
Qed.

Lemma accept_if_better_kept (first first' : Buffer) y x score v u :
  0 ≤ y → 0 ≤ x →
  accept_if_better first y x score v u = Some first' →
  cells_kept_or_improved first first'.
Proof.
  intros Hy Hx Hacc.
  apply accept_if_better_cases in Hacc
    as [->|(cur & sc & ix & Hcur & Hlt & Hsc & Hix & ->)];
    [apply cells_kept_refl|].
  intros y' x' Hy' Hx'. unfold cell_kept_or_improved. simpl.
  destruct (decide ((y', x') = (y, x))) as [E|Hne].
  - injection E as -> ->. right. exists cur, score.
    by rewrite (get2_set2_eq _ _ _ _ _ Hsc).
  - left. by rewrite (get2_set2_ne _ _ _ _ _ _ _ Hsc),
                     (get2_set2_ne _ _ _ _ _ _ _ Hix).
Qed.

Lemma propagate_step_kept (second first first' : Buffer) padding y x offset :
  0 ≤ y → 0 ≤ x →
  propagate_step second padding y x offset first = Some first' →
  cells_kept_or_improved first first'.
Proof.
  intros Hy Hx. unfold propagate_step. intros H.
  destruct (get2 (indices first) _ _) as [nvu|]; [cbn [mbind option_bind] in H|done].
  destruct (patches_score first y x second _ _ padding) as [score|];
    [cbn [mbind option_bind] in H|done].
  eapply accept_if_better_kept; [| |exact H]; done.
Qed.

Lemma patches_propagate_kept (second first first' : Buffer) i padding :
  patches_propagate first second i padding = Some first' →
  cells_kept_or_improved first first'.
Proof.
  unfold patches_propagate.
  apply (for_each_preserves (cells_kept_or_improved first));
    [|apply cells_kept_refl].
  intros y s s' Hy%elem_of_propagate_scan Hs.
  apply (for_each_preserves (cells_kept_or_improved first)); [|done].
  clear s s' Hs. intros x s s' Hx%elem_of_propagate_scan Hs.
  apply (for_each_preserves (cells_kept_or_improved first)); [|done].
  clear s s' Hs. intros offset s s' _ Hs Hstep.
  eapply cells_kept_trans; [exact Hs|].
  eapply propagate_step_kept; [| |exact Hstep]; lia.
Qed.

Lemma search_step_kept (second first : Buffer) radius padding y x g st' :
  0 ≤ y → 0 ≤ x →
  search_step second radius padding y x (first, g) = Some st' →
  cells_kept_or_improved first st'.1.
Proof.
  intros Hy Hx. unfold search_step. simpl. intros H.
  destruct (search_candidate _ _ _ _ _) as [[[v u] g1]|]; [simpl in H|done].
  destruct (patches_score first y x second v u padding) as [score|];
    [simpl in H|done].
  destruct (accept_if_better first y x score v u) as [first'|] eqn:Ea;
    [simpl in H|done].
  simplify_eq. simpl. eapply accept_if_better_kept; [| |exact Ea]; done.
Qed.

Lemma patches_search_kept (second first : Buffer) times radius padding g st' :
  patches_search first second times radius padding g = Some st' →
  cells_kept_or_improved first st'.1.
Proof.
  unfold patches_search.
  apply (for_each_preserves
           (fun st : Buffer * rng => cells_kept_or_improved first st.1));
    [|apply cells_kept_refl].
  intros y s s' Hy%elem_of_py_range Hs.
  apply (for_each_preserves
           (fun st : Buffer * rng => cells_kept_or_improved first st.1)); [|done].
  clear s s' Hs. intros x s s' Hx%elem_of_py_range Hs.
  apply (for_each_preserves
           (fun st : Buffer * rng => cells_kept_or_improved first st.1)); [|done].
  clear s s' Hs. intros k [s g0] s' _ Hs Hstep. simpl in Hs.
  eapply cells_kept_trans; [exact Hs|].
  eapply search_step_kept; [| |exact Hstep]; lia.
Qed.

(** X2. Over any sequence of propagation and search calls, a cell either
    keeps both its score and its index, or ends with a strictly greater
    score: the index stored at a cell never changes without a strict rise of
    the score. A cell whose score is NaN therefore keeps its score and its
    index for ever. *)
Theorem index_changes_only_with_better_score (second : Buffer)
    (ms : list mutation) (st st' : Buffer * rng) (y x : Z) :
  Forall refines ms →
  run_mutations second ms st = Some st' →
  0 ≤ y → 0 ≤ x →
  cell_kept_or_improved st.1 st'.1 y x
  ∧ (get2 (scores st'.1) y x = get2 (scores st.1) y x →
     get2 (indices st'.1) y x = get2 (indices st.1) y x)
  ∧ (get2 (scores st.1) y x = Some F32.nan →
     get2 (scores st'.1) y x = Some F32.nan
     ∧ get2 (indices st'.1) y x = get2 (indices st.1) y x).
Proof.
  intros Hms Hrun Hy Hx.
  assert (cells_kept_or_improved st.1 st'.1) as Hk.
  { revert Hrun. unfold run_mutations.
    apply (for_each_preserves
             (fun s : Buffer * rng => cells_kept_or_improved st.1 s.1));
      [|apply cells_kept_refl].
    intros m s s' Hm Hs Hstep.
    eapply cells_kept_trans; [exact Hs|].
    rewrite Forall_forall in Hms. specialize (Hms m Hm).
    destruct m as [p|i p|t r p|parent]; simpl in Hms; try done;
      unfold run_mutation in Hstep.
    - destruct (patches_propagate s.1 second i p) as [f|] eqn:E;
        [simpl in Hstep|done].
      simplify_eq. simpl. by eapply patches_propagate_kept.
    - by eapply patches_search_kept. }
  specialize (Hk y x Hy Hx). split; [exact Hk|]. split.
  - intros Heq. destruct Hk as [[_ Hi]|(s & s' & E & E' & Hlt)]; [done|].
    rewrite E, E' in Heq. injection Heq as ->.
    by rewrite F32_ltb_irrefl in Hlt.
  - intros Hnan. destruct Hk as [[Hs Hi]|(s & s' & E & E' & Hlt)].
    + split; [congruence|done].
    + rewrite Hnan in E. injection E as <-. discriminate Hlt.
Qed.

(** ** Random draws of the search *)

(** A loop whose iterations each add [c] to a measure adds [c] times its
    length. *)
Lemma for_each_count {S A} (m : S → nat) (c : nat) (l : list A)
    (body : A → S → option S) :
  (∀ a s s', body a s = Some s' → m s' = (m s + c)%nat) →
  ∀ s s', for_each l body s = Some s' → m s' = (m s + c * length l)%nat.
Proof.
  intros Hbody. induction l as [|a l IH]; intros s s' Hrun; simpl in Hrun.
  - simplify_eq. simpl. lia.
  - destruct (body a s) as [s1|] eqn:E; [simpl in Hrun|done].
    rewrite (IH _ _ Hrun), (Hbody _ _ _ E). simpl. lia.
Qed.

(** A loop whose iterations change nothing changes nothing. *)
Lemma for_each_skip {S A} (l : list A) (body : A → S → option S) (s : S) :
  (∀ a s, body a s = Some s) → for_each l body s = Some s.
Proof.
  intros Hbody. induction l as [|a l IH]; [done|]. simpl.
  by rewrite Hbody.
Qed.

Lemma length_py_range (n : nat) : length (py_range n) = n.
Proof. unfold py_range. rewrite length_seqZ. lia. Qed.

Lemma search_candidate_draws (h w : nat) radius vu (g g' : rng) v u :
  search_candidate h w radius vu g = Some (v, u, g') →
  drawn g' = S (S (drawn g)) ∧ entropy g' = entropy g.
Proof.
  unfold search_candidate. intros H.
  destruct (0 <? radius).
  - destruct vu as [[v0 u0]|]; [simpl in H|done].
    destruct (randint g _ _) as [[dv g1]|] eqn:E1; [simpl in H|done].
    destruct (randint g1 _ _) as [[du g2]|] eqn:E2; [simpl in H|done].
    apply randint_in_range in E1 as (_ & ? & ?), E2 as (_ & ? & ?).
    simplify_eq. split; congruence.
  - destruct (randint g _ _) as [[v1 g1]|] eqn:E1; [simpl in H|done].
    destruct (randint g1 _ _) as [[u1 g2]|] eqn:E2; [simpl in H|done].
    apply randint_in_range in E1 as (_ & ? & ?), E2 as (_ & ? & ?).
    simplify_eq. split; congruence.
Qed.

Lemma search_step_draws (second : Buffer) radius padding y x st st' :
  search_step second radius padding y x st = Some st' →
  drawn st'.2 = (drawn st.2 + 2)%nat ∧ entropy st'.2 = entropy st.2.
Proof.
  unfold search_step. intros H.
  destruct (search_candidate _ _ _ _ _) as [[[v u] g1]|] eqn:Ec;
    [cbn [mbind option_bind] in H|done].
  destruct (patches_score _ _ _ _ _ _ _) as [score|];
    [cbn [mbind option_bind] in H|done].
  destruct (accept_if_better _ _ _ _ _ _) as [first'|];
    [cbn [mbind option_bind] in H|done].
  apply search_candidate_draws in Ec as [Hd He].
  simplify_eq. simpl. split; [lia|done].
Qed.

Lemma patches_search_drawn (first second : Buffer) (times rad padding : Z)
    (g : rng) (st' : Buffer * rng) :
  patches_search first second times rad padding g = Some st' →
  drawn st'.2
  = (drawn g + 2 * Z.to_nat times * shape1 (indices first)
               * shape0 (indices first))%nat.
Proof.
  unfold patches_search. intros H.
  apply (for_each_count (fun st : Buffer * rng => drawn st.2)
           (2 * Z.to_nat times * shape1 (indices first))) in H.
  - rewrite length_py_range in H. simpl in H. lia.
  - clear. intros y s s' H.
    apply (for_each_count (fun st : Buffer * rng => drawn st.2)
             (2 * Z.to_nat times)) in H.
    + rewrite length_py_range in H. lia.
    + clear. intros x s s' H.
      apply (for_each_count (fun st : Buffer * rng => drawn st.2) 2) in H.
      * rewrite length_py_range in H. lia.
      * clear. intros k s s' H. by apply search_step_draws in H as [-> _].
Qed.

Lemma patches_search_entropy (first second : Buffer) (times rad padding : Z)
    (g : rng) (st' : Buffer * rng) :
  patches_search first second times rad padding g = Some st' →
  entropy st'.2 = entropy g.
Proof.
  unfold patches_search.
  apply (for_each_preserves
           (fun s : Buffer * rng => entropy s.2 = entropy g)); [|done].
  intros y s s' _ Hs.
  apply (for_each_preserves
           (fun s : Buffer * rng => entropy s.2 = entropy g)); [|done].
  clear s s' Hs. intros x s s' _ Hs.
  apply (for_each_preserves
           (fun s : Buffer * rng => entropy s.2 = entropy g)); [|done].
  clear s s' Hs. intros k s s' _ Hs Hstep.
  apply search_step_draws in Hstep as [_ ->]. done.
Qed.

(** X3. A search that returns has drawn exactly two random integers for each
    repeat of each cell: [2 * times * H * W] draws in all, whatever the
    radius, out of the same entropy source. *)
Theorem patches_search_draws (first second : Buffer) (times rad padding : Z)
    (g : rng) (st' : Buffer * rng) :
  patches_search first second times rad padding g = Some st' →
  drawn st'.2
  = (drawn g + 2 * Z.to_nat times * shape1 (indices first)
               * shape0 (indices first))%nat
  ∧ entropy st'.2 = entropy g.
Proof.
  intros H. split; [by eapply patches_search_drawn|by eapply patches_search_entropy].
Qed.

(** X4. A search with no repeat ([times <= 0]) returns the field and the
    generator as they are; an odd iteration of the refinement loop on a level
    of radius 1 is such a search ([1 // 2 = 0]) and does nothing. *)
Theorem search_without_repeats_is_skipped (first second : Buffer)
    (times rad padding i : Z) (g : rng) :
  times ≤ 0 →
  patches_search first second times rad padding g = Some (first, g)
  ∧ (i mod 2 = 1 → radius first = 1 →
     flow_iteration second i (first, g) = Some (first, g)).
Proof.
  intros Ht.
  assert (∀ t, t ≤ 0 → ∀ f r p g0,
            patches_search f second t r p g0 = Some (f, g0)) as Hskip.
  { clear. intros t Ht f r p g0. unfold patches_search.
    apply for_each_skip. intros y s. apply for_each_skip. intros x s'.
    replace (Z.to_nat t) with 0%nat by lia. reflexivity. }
  split; [by apply Hskip|].
  intros Hi Hr. unfold flow_iteration. rewrite Hi. simpl.
  apply Hskip. unfold search_times. rewrite Hr. reflexivity.
Qed.

(** ** The matching of one level *)

(** On well-formed buffers whose stored indices lie within the field, the
    initialisation returns. *)
Lemma patches_initialize_total (h w d : nat) (first second : Buffer) padding :
  field_ok h w d first → bank_covers h w d second → own_bounds first →
  ∃ first', patches_initialize first second padding = Some first'
            ∧ field_ok h w d first' ∧ indices first' = indices first.
Proof.
  intros Hok Hcov Hown. pose proof Hok as ((Wi & Hi0 & Hi1 & _) & _).
  unfold patches_initialize. rewrite Hi0, Hi1.
  set (I := fun s : Buffer => field_ok h w d s ∧ indices s = indices first).
  apply (for_each_total I); [|done].
  intros y s Hy%elem_of_py_range Hs.
  apply (for_each_total I); [|done].
  clear s Hs. intros x s Hx%elem_of_py_range [Hs Hix].
  unfold initialize_cell. rewrite Hix.
  destruct (get2_in_range (indices first) y x) as [[v u] Hvu]; [done|lia..|].
  rewrite Hvu. cbn [mbind option_bind].
  destruct (index_in_own_bounds first y x v u Hown Hvu) as [Hv Hu].
  destruct (patches_score_total h w d s second y x v u padding) as [sc Hsc];
    [done|done|done|done|lia|lia|].
  rewrite Hsc. cbn [mbind option_bind].
  destruct (set2_is_Some (scores s) y x sc) as [arr Harr].
  { destruct Hs as ((_ & _ & _ & Ws & Hs0 & Hs1 & _) & _).
    apply get2_in_range; [done|rewrite Hs0; lia|rewrite Hs1; lia]. }
  rewrite Harr. cbn [mbind option_bind]. eexists. split; [done|].
  split; [by eapply store_keeps_field_ok|done].
Qed.

Lemma search_candidate_total (h w : nat) radius v u (g : rng) :
  (0 < h)%nat → (0 < w)%nat →
  is_Some (search_candidate h w radius (Some (v, u)) g).
Proof.
  intros Hh Hw. unfold search_candidate, randint.
  destruct (0 <? radius) eqn:E.
  - apply Z.ltb_lt in E. cbn [mbind option_bind].
    replace (- radius <? radius) with true by (symmetry; apply Z.ltb_lt; lia).
    cbn [mbind option_bind]. 
    replace (- radius <? radius) with true by (symmetry; apply Z.ltb_lt; lia).
    cbn [mbind option_bind]. eauto.
  - replace (0 <? Z.of_nat h) with true by (symmetry; apply Z.ltb_lt; lia).
    cbn [mbind option_bind].
    replace (0 <? Z.of_nat w) with true by (symmetry; apply Z.ltb_lt; lia).
    cbn [mbind option_bind]. eauto.
Qed.

Lemma search_step_total (h w d : nat) (second : Buffer) radius padding y x st :
  field_ok h w d st.1 → bank_covers h w d second →
  0 ≤ y < Z.of_nat h → 0 ≤ x < Z.of_nat w →
  ∃ st', search_step second radius padding y x st = Some st'
         ∧ field_ok h w d st'.1.
Proof.
  intros Hok Hcov Hy Hx. pose proof Hok as ((Wi & Hi0 & Hi1 & _) & _).
  unfold search_step. rewrite Hi0, Hi1.
  destruct (get2_in_range (indices st.1) y x) as [[v0 u0] Hvu]; [done|lia..|].
  rewrite Hvu.
  destruct (search_candidate_total h w radius v0 u0 st.2) as [[[v u] g1] Hc];
    [lia..|].
  rewrite Hc. cbn [mbind option_bind].
  destruct (search_candidate_in_range _ _ _ _ _ _ _ _ Hc) as [Hv Hu]; [lia..|].
  destruct (patches_score_total h w d st.1 second y x v u padding) as [score Hs];
    [done..|].
  rewrite Hs. cbn [mbind option_bind].
  destruct (accept_if_better_total h w d st.1 y x score v u) as (f' & Hf & Hok');
    [done..|].
  rewrite Hf. cbn [mbind option_bind]. eauto.
Qed.

(** On well-formed buffers a search returns: none of its accesses falls
    outside an array and every range it draws from is non-empty. *)
Lemma patches_search_total (h w d : nat) (first second : Buffer) times radius
    padding g :
  field_ok h w d first → bank_covers h w d second →
  ∃ st', patches_search first second times radius padding g = Some st'
         ∧ field_ok h w d st'.1.
Proof.
  intros Hok Hcov. pose proof Hok as ((_ & Hi0 & Hi1 & _) & _).
  unfold patches_search. rewrite Hi0, Hi1.
  set (I := fun st : Buffer * rng => field_ok h w d st.1).
  apply (for_each_total I); [|done].
  intros y s Hy%elem_of_py_range Hs.
  apply (for_each_total I); [|done].
  clear s Hs. intros x s Hx%elem_of_py_range Hs.
  apply (for_each_total I); [|done].
  clear s Hs. intros k s _ Hs.
  by apply search_step_total.
Qed.

Lemma flow_iteration_spec (second : Buffer) i st st' :
  flow_iteration second i st = Some st' →
  refined_from second st.1 st'.1
  ∧ entropy st'.2 = entropy st.2
  ∧ drawn st'.2
    = (drawn st.2
       + (if (i mod 2 =? 1)%Z
          then 2 * Z.to_nat (search_times (radius st.1))
               * shape1 (indices st.1) * shape0 (indices st.1)
          else 0))%nat.
Proof.
  unfold flow_iteration. intros H.
  assert (i mod 2 = 0 ∨ i mod 2 = 1) as [E|E]
    by (pose proof (Z.mod_pos_bound i 2); lia); rewrite E in *; simpl in H |- *.
  - destruct (patches_propagate _ _ _ _) as [f'|] eqn:Ep;
      [cbn [mbind option_bind] in H|done].
    simplify_eq. simpl. split; [by eapply patches_propagate_refines|].
    split; [done|lia].
  - split; [by eapply patches_search_refines|]. split.
    + by eapply patches_search_entropy.
    + by apply patches_search_drawn in H.
Qed.

(** The draws of [n] iterations numbered from 0, for a field of [cells] cells
    searched [times] times on every odd iteration. *)
Lemma flow_iterations_spec (second : Buffer) (n : nat) st st' :
  for_each (py_range n) (flow_iteration second) st = Some st' →
  refined_from second st.1 st'.1
  ∧ entropy st'.2 = entropy st.2
  ∧ drawn st'.2
    = (drawn st.2
       + (n / 2) * (2 * Z.to_nat (search_times (radius st.1))
                    * shape1 (indices st.1) * shape0 (indices st.1)))%nat.
Proof.
  revert st'. induction n as [|n IH]; intros st' H.
  - simpl in H. simplify_eq. split; [apply refined_from_refl|].
    split; [done|simpl; lia].
  - replace (py_range (S n)) with (py_range n ++ [Z.of_nat n]) in H.
    2:{ unfold py_range. rewrite Nat2Z.inj_succ.
        replace (Z.succ (Z.of_nat n)) with (Z.of_nat n + 1) by lia.
        rewrite seqZ_app by lia. simpl. done. }
    rewrite for_each_app in H.
    destruct (for_each (py_range n) _ st) as [s1|] eqn:E1;
      [cbn [mbind option_bind] in H|done].
    simpl in H.
    destruct (flow_iteration second (Z.of_nat n) s1) as [s2|] eqn:E2;
      [simpl in H|done].
    simplify_eq. destruct (IH _ eq_refl) as (R1 & En1 & D1).
    destruct (flow_iteration_spec _ _ _ _ E2) as (R2 & En2 & D2).
    split; [by eapply refined_from_trans|]. split; [congruence|].
    destruct R1 as ((_ & _ & S0 & S1 & Rd & _) & _).
    rewrite D2, D1, S0, S1, Rd. clear.
    set (c := (2 * Z.to_nat (search_times (radius st.1))
               * shape1 (indices st.1) * shape0 (indices st.1))%nat).
    assert (Z.of_nat n mod 2 = 0 ∨ Z.of_nat n mod 2 = 1) as [E|E]
      by (pose proof (Z.mod_pos_bound (Z.of_nat n) 2); lia); rewrite E;
      [change (0 =? 1) with false|change (1 =? 1) with true]; cbv iota.
    + assert (S n / 2 = n / 2)%nat as ->; [|lia].
      apply Nat2Z.inj. rewrite !Nat2Z.inj_div. simpl Z.of_nat at 2 4.
      rewrite Nat2Z.inj_succ. 
      pose proof (Z.div_mod (Z.of_nat n) 2 ltac:(lia)).
      pose proof (Z.div_mod (Z.succ (Z.of_nat n)) 2 ltac:(lia)).
      pose proof (Z.mod_pos_bound (Z.succ (Z.of_nat n)) 2 ltac:(lia)). lia.
    + assert (S n / 2 = S (n / 2))%nat as ->; [|lia].
      apply Nat2Z.inj. rewrite Nat2Z.inj_succ, !Nat2Z.inj_div. simpl Z.of_nat at 2 4.
      rewrite Nat2Z.inj_succ. 
      pose proof (Z.div_mod (Z.of_nat n) 2 ltac:(lia)).
      pose proof (Z.div_mod (Z.succ (Z.of_nat n)) 2 ltac:(lia)).
      pose proof (Z.mod_pos_bound (Z.succ (Z.of_nat n)) 2 ltac:(lia)). lia.
Qed.

Lemma compute_flow_frame (first second : Buffer) (g : rng) (st' : Buffer * rng) :
  compute_flow first second g = Some st' →
  same_frame first st'.1 ∧ (own_bounds first → own_bounds st'.1).
Proof.
  unfold compute_flow. intros H.
  destruct (patches_initialize _ _ _) as [f0|] eqn:E0;
    [cbn [mbind option_bind] in H|done].
  apply patches_initialize_spec in E0 as (F0 & I0 & _).
  apply flow_iterations_spec in H as ((F1 & _ & _ & B1) & _).
  simpl in *. split; [by eapply same_frame_trans|].
  intros Hown. apply B1. unfold own_bounds. rewrite I0. exact Hown.
Qed.

(** X5. On well-formed buffers (a field of [h] by [w] cells, and patch
    banks of the other image that cover [h] by [w] cells with descriptors of
    the same size) each of the three operations of the matching returns: the
    initialisation when the indices of the field lie within it, a propagation
    pass and a search with any arguments; none of their accesses falls
    outside an array, no random range is empty, and the field they return is
    well formed again. *)
Theorem matching_operations_return (h w d : nat) (first second : Buffer)
    (i times rad padding : Z) (g : rng) :
  field_ok h w d first → bank_covers h w d second →
  (own_bounds first →
   ∃ first', patches_initialize first second padding = Some first'
             ∧ field_ok h w d first' ∧ own_bounds first')
  ∧ (∃ first', patches_propagate first second i padding = Some first'
               ∧ field_ok h w d first')
  ∧ (∃ st', patches_search first second times rad padding g = Some st'
            ∧ field_ok h w d st'.1).
Proof.
  intros Hok Hcov. split; [|split].
  - intros Hown.
    destruct (patches_initialize_total h w d first second padding)
      as (f0 & Hf0 & Hok0 & Hi); [done..|].
    exists f0. split; [done|]. split; [done|].
    unfold own_bounds. by rewrite Hi.
  - by apply patches_propagate_total.
  - by apply patches_search_total.
Qed.

(** X6. What the matching of a level returns: the field has the patch
    banks, shape, radius and padding it had; its indices lie within its own
    shape if they did; the score stored at every cell is the score of the
    index stored there; and the 16 odd iterations have drawn
    [2 * (r // 2) * H * W] random integers each, [r] being the radius or 12. *)
Theorem compute_flow_result (first second : Buffer) (g : rng) (st' : Buffer * rng) :
  compute_flow first second g = Some st' →
  same_frame first st'.1
  ∧ (own_bounds first → own_bounds st'.1)
  ∧ (∀ y x, 0 ≤ y < Z.of_nat (shape0 (indices first)) →
            0 ≤ x < Z.of_nat (shape1 (indices first)) →
            cell_consistent second st'.1 y x)
  ∧ entropy st'.2 = entropy g
  ∧ drawn st'.2
    = (drawn g + 16 * (2 * Z.to_nat (search_times (radius first))
                       * shape1 (indices first) * shape0 (indices first)))%nat.
Proof.
  unfold compute_flow. intros H.
  destruct (patches_initialize _ _ _) as [f0|] eqn:E0;
    [cbn [mbind option_bind] in H|done].
  apply patches_initialize_spec in E0 as (F0 & I0 & C0).
  apply flow_iterations_spec in H as ((F1 & C1 & _ & B1) & En & Dr).
  simpl in *. pose proof F0 as (_ & _ & S0 & S1 & Rd & _).
  split; [by eapply same_frame_trans|].
  split. { intros Hown. apply B1. unfold own_bounds. rewrite I0. exact Hown. }
  split. { intros y x Hy Hx. apply C1; [lia..|]. by apply C0. }
  split; [done|]. rewrite Dr, S0, S1, Rd. done.
Qed.

(** ** What a call reads of the opposing buffer *)

Lemma for_each_ext {S A} (l : list A) (body body' : A → S → option S) (s : S) :
  (∀ a s, body a s = body' a s) → for_each l body s = for_each l body' s.
Proof.
  intros Hbody. revert s. induction l as [|a l IH]; intros s; [done|].
  simpl. rewrite Hbody. destruct (body' a s); [apply IH|done].
Qed.

Lemma patches_score_opposing (first second second' : Buffer) y x v u padding :
  patches_repro second' = patches_repro second →
  patches_orign second' = patches_orign second →
  patches_score first y x second' v u padding
  = patches_score first y x second v u padding.
Proof. intros H1 H2. unfold patches_score. by rewrite H1, H2. Qed.

Lemma patches_initialize_opposing (first second second' : Buffer) padding :
  patches_repro second' = patches_repro second →
  patches_orign second' = patches_orign second →
  patches_initialize first second' padding = patches_initialize first second padding.
Proof.
  intros H1 H2. unfold patches_initialize.
  apply for_each_ext. intros y s. apply for_each_ext. intros x s'.
  unfold initialize_cell.
  destruct (get2 (indices s') y x) as [[v u]|]; [cbn [mbind option_bind]|done].
  by rewrite (patches_score_opposing _ second second').
Qed.

Lemma patches_propagate_opposing (first second second' : Buffer) i padding :
  patches_repro second' = patches_repro second →
  patches_orign second' = patches_orign second →
  patches_propagate first second' i padding = patches_propagate first second i padding.
Proof.
  intros H1 H2. unfold patches_propagate.
  apply for_each_ext. intros y s. apply for_each_ext. intros x s'.
  apply for_each_ext. intros offset s''. unfold propagate_step.
  destruct (get2 (indices s'') _ _) as [nvu|]; [cbn [mbind option_bind]|done].
  by rewrite (patches_score_opposing _ second second').
Qed.

Lemma patches_search_opposing (first second second' : Buffer) times rad padding g :
  patches_repro second' = patches_repro second →
  patches_orign second' = patches_orign second →
  patches_search first second' times rad padding g
  = patches_search first second times rad padding g.
Proof.
  intros H1 H2. unfold patches_search.
  apply for_each_ext. intros y s. apply for_each_ext. intros x s'.
  apply for_each_ext. intros k s''. unfold search_step.
  destruct (search_candidate _ _ _ _ _) as [[[v u] g1]|];
    [cbn [mbind option_bind]|done].
  by rewrite (patches_score_opposing _ second second').
Qed.

(** X7. The matching of a level reads of the opposing buffer its two patch
    banks and nothing else: not its indices, its scores, its radius or its
    padding. So the matching of the second image against the first, which
    [process] runs after the matching of the first against the second, gives
    what it would have given before it. *)
Theorem compute_flow_reads_opposing_banks (first second second' : Buffer)
    (g g1 : rng) :
  (patches_repro second' = patches_repro second →
   patches_orign second' = patches_orign second →
   compute_flow first second' g = compute_flow first second g)
  ∧ (∀ st, compute_flow second first g1 = Some st →
           compute_flow first st.1 g = compute_flow first second g).
Proof.
  assert (∀ s s', patches_repro s' = patches_repro s →
                  patches_orign s' = patches_orign s →
                  compute_flow first s' g = compute_flow first s g) as Hbanks.
  { clear. intros s s' H1 H2. unfold compute_flow.
    rewrite (patches_initialize_opposing _ s s') by done.
    destruct (patches_initialize first s (padding first)) as [f0|];
      [cbn [mbind option_bind]|done].
    apply for_each_ext. intros i st. unfold flow_iteration.
    rewrite (patches_propagate_opposing _ s s') by done.
    destruct (i mod 2 =? 0).
    - destruct (patches_propagate _ _ _ _) as [f|]; [cbn [mbind option_bind]|done].
      destruct (i mod 2 =? 1); [|done]. by apply patches_search_opposing.
    - cbn [mbind option_bind].
      destruct (i mod 2 =? 1); [|done]. by apply patches_search_opposing. }
  split; [apply Hbanks|].
  intros st Hst. apply compute_flow_frame in Hst as ((Hr & Ho & _) & _).
  by apply Hbanks.
Qed.

(** ** Upsampling the field of the level above *)

(** X8. A merge that returns has passed its assertion, so the field has twice
    the rows and columns of the field of the level above; it leaves at every
    cell [(y, x)] the index that the level above holds at [(y // 2, x // 2)],
    doubled in [int32]; and it changes nothing else but the reproduction
    patches: the scores stay those of the earlier indices. *)
Theorem merge_flow_upsamples (this parent other this' : Buffer) :
  merge_flow this (Some parent) other = Some this' →
  (shape0 (indices this) = 2 * shape0 (indices parent)
   ∧ shape1 (indices this) = 2 * shape1 (indices parent))%nat
  ∧ (∀ y x, 0 ≤ y < Z.of_nat (shape0 (indices this)) →
            0 ≤ x < Z.of_nat (shape1 (indices this)) →
            get2 (indices this') y x
            = (fun vu : Z * Z => (wrap_int32 (vu.1 * 2), wrap_int32 (vu.2 * 2)))
                <$> get2 (indices parent) (y / 2) (x / 2))
  ∧ scores this' = scores this
  ∧ patches_orign this' = patches_orign this
  ∧ features_orign this' = features_orign this
  ∧ weights this' = weights this
  ∧ radius this' = radius this ∧ padding this' = padding this.
Proof.
  unfold merge_flow. intros H.
  destruct (zoom2 _) as [zoomed|] eqn:Ez; [simpl in H|done].
  case_decide as Hshape; [|done]. destruct Hshape as [E0 E1].
  destruct (warp_features _ _ _) as [warpd|]; [simpl in H|done].
  destruct (blend_features _ _ _) as [repro|]; [simpl in H|done].
  destruct (extract_patches _ _) as [patches|]; [simpl in H|done].
  injection H as <-. simpl. unfold zoom2 in Ez.
  destruct (tabulate2M_shape _ _ _ _ Ez) as [Z0 Z1]. simpl in Z0, Z1.
  split; [split; congruence|]. split; [|done].
  intros y x Hy Hx. rewrite E0, Z0 in Hy. rewrite E1, Z1 in Hx.
  rewrite (get2_tabulate2M _ _ _ _ _ _ Ez) by done. simpl.
  rewrite !zoom_source_double by lia.
  unfold double_indices. by rewrite get2_map_cells.
Qed.

(** ** Patch extraction *)

Lemma lookup_list_prod {A B} (l1 : list A) (l2 : list B) i j a b :
  l1 !! i = Some a → l2 !! j = Some b →
  list_prod l1 l2 !! (i * length l2 + j)%nat = Some (a, b).
Proof.
  revert i. induction l1 as [|a0 l1 IH]; intros i Ha Hb; [done|].
  simpl. destruct i as [|i]; simpl in Ha |- *.
  - simplify_eq. rewrite lookup_app_l.
    + change (List.map (λ y : B, (a, y)) l2) with ((λ y : B, (a, y)) <$> l2).
      by rewrite list_lookup_fmap, Hb.
    + rewrite length_map. by eapply lookup_lt_Some.
  - rewrite lookup_app_r; rewrite length_map; [|lia].
    replace (length l2 + i * length l2 + j - length l2)%nat
      with (i * length l2 + j)%nat by lia.
    by apply IH.
Qed.

Lemma length_list_prod {A B} (l1 : list A) (l2 : list B) :
  length (list_prod l1 l2) = (length l1 * length l2)%nat.
Proof. apply length_prod. Qed.

Lemma lookup_join_uniform {A} (n : nat) (ls : list (list A)) k v c :
  Forall (fun v => length v = n) ls →
  ls !! k = Some v → (c < n)%nat →
  mjoin ls !! (k * n + c)%nat = v !! c.
Proof.
  revert k. induction ls as [|l ls IH]; intros k Hn Hk Hc; [done|].
  apply Forall_cons in Hn as [Hl Hn]. simpl.
  destruct k as [|k]; simpl in Hk |- *.
  - simplify_eq. rewrite lookup_app_l by lia. done.
  - rewrite lookup_app_r by lia. rewrite Hl.
    replace (n + k * n + c - n)%nat with (k * n + c)%nat by lia.
    by apply IH.
Qed.

Lemma length_join_uniform {A} (n : nat) (ls : list (list A)) :
  Forall (fun v => length v = n) ls → length (mjoin ls) = (length ls * n)%nat.
Proof.
  induction 1 as [|l ls Hl _ IH]; [done|].
  simpl. rewrite length_app, IH, Hl. lia.
Qed.

Lemma mapM_total {A B} (f : A → option B) (l : list A) :
  (∀ a, a ∈ l → is_Some (f a)) → is_Some (mapM f l).
Proof.
  intros H. apply mapM_is_Some. apply Forall_forall. exact H.
Qed.

Lemma edge_clamp_in_range (n : nat) (p i : Z) :
  (0 < n)%nat → 0 ≤ edge_clamp n p i < Z.of_nat n.
Proof. unfold edge_clamp. lia. Qed.

Lemma channel_in_range (f : features) ch y x :
  features_shaped f → ch ∈ channels f →
  0 ≤ y < Z.of_nat (size2 f) → 0 ≤ x < Z.of_nat (size3 f) →
  is_Some (get2 ch y x).
Proof.
  intros Hf Hch Hy Hx. unfold features_shaped in Hf. rewrite Forall_forall in Hf.
  destruct (Hf ch Hch) as (W & S0 & S1).
  apply get2_in_range; [done|rewrite S0; lia|rewrite S1; lia].
Qed.

(** The patch of one cell: a vector of [(2p+1)^2 * C] components. *)
Lemma window_total (f : features) (p y x : Z) :
  features_shaped f → (0 < size2 f)%nat → (0 < size3 f)%nat → 0 ≤ p →
  ∃ vs, mapM (fun '(dy, dx) =>
                mapM (fun ch => get2 ch (edge_clamp (size2 f) p (y + dy))
                                        (edge_clamp (size3 f) p (x + dx)))
                     (channels f))
             (list_prod (seqZ 0 (2 * p + 1)) (seqZ 0 (2 * p + 1))) = Some vs
        ∧ length vs = (Z.to_nat (2 * p + 1) * Z.to_nat (2 * p + 1))%nat
        ∧ Forall (fun v => length v = length (channels f)) vs.
Proof.
  intros Hf Hh Hw Hp.
  destruct (mapM_total
              (fun '(dy, dx) =>
                 mapM (fun ch => get2 ch (edge_clamp (size2 f) p (y + dy))
                                         (edge_clamp (size3 f) p (x + dx)))
                      (channels f))
              (list_prod (seqZ 0 (2 * p + 1)) (seqZ 0 (2 * p + 1)))) as [vs Hvs].
  { intros [dy dx] _. apply mapM_total. intros ch Hch.
    apply (channel_in_range f); [done..|apply edge_clamp_in_range; lia
                                       |apply edge_clamp_in_range; lia]. }
  exists vs. split; [done|]. pose proof Hvs as Hall. apply mapM_Some in Hall.
  split.
  - rewrite <- (Forall2_length _ _ _ Hall), length_list_prod, !length_seqZ. done.
  - apply Forall_forall. intros v Hv.
    apply list_elem_of_lookup in Hv as [k Hk].
    destruct (Forall2_lookup_r _ _ _ _ _ Hall Hk) as ([dy dx] & _ & Hrow).
    apply mapM_Some in Hrow. by rewrite <- (Forall2_length _ _ _ Hrow).
Qed.

(** Patch extraction returns on a finite feature map that has cells and
    channels. *)
Lemma extract_patches_total (f : features) (p : Z) :
  features_shaped f → (0 < size2 f)%nat → (0 < size3 f)%nat → 0 ≤ p →
  channels f ≠ [] → all_finite f = true →
  ∃ a, extract_patches f p = Some a
       ∧ well_shaped a ∧ shape0 a = size2 f ∧ shape1 a = size3 f
       ∧ descriptors_sized
           (Z.to_nat (2 * p + 1) * Z.to_nat (2 * p + 1) * length (channels f)) a.
Proof.
  intros Hf Hh Hw Hp Hne Hfin. unfold extract_patches.
  replace (p <? 0) with false by (symmetry; apply Z.ltb_ge; lia).
  replace (Nat.eqb (size2 f) 0) with false by (symmetry; apply Nat.eqb_neq; lia).
  replace (Nat.eqb (size3 f) 0) with false by (symmetry; apply Nat.eqb_neq; lia).
  replace (Nat.eqb (length (channels f)) 0) with false
    by (symmetry; apply Nat.eqb_neq; by destruct (channels f)).
  rewrite Hfin. cbn [orb negb].
  match goal with |- ∃ a, tabulate2M ?h ?w ?g = Some a ∧ _ =>
    set (cell := g);
    assert (is_Some (tabulate2M h w cell)) as [a Ha]
  end.
  { unfold tabulate2M.
    destruct (mapM_total (fun y => mapM (cell y) (py_range (size3 f)))
                (py_range (size2 f))) as [rs Hrs].
    - intros y _. apply mapM_total. intros x _. unfold cell.
      destruct (window_total f p y x) as (vs & Hvs & _); [done..|].
      unfold edge_clamp in Hvs. rewrite Hvs. simpl. eauto.
    - rewrite Hrs. simpl. eauto. }
  exists a. split; [done|].
  split; [by eapply tabulate2M_well_shaped|].
  destruct (tabulate2M_shape _ _ _ _ Ha) as [S0 S1].
  split; [done|]. split; [done|].
  apply Forall_forall. intros r Hr. apply Forall_forall. intros c Hc.
  destruct (tabulate2M_cells _ _ _ _ _ _ Ha Hr Hc) as (y & x & _ & _ & Hcell).
  unfold cell in Hcell.
  destruct (window_total f p y x) as (vs & Hvs & Hlen & Hall); [done..|].
  unfold edge_clamp in Hvs. rewrite Hvs in Hcell. simpl in Hcell.
  injection Hcell as <-. rewrite (length_join_uniform _ _ Hall), Hlen. done.
Qed.

(** The shape of what patch extraction returns. *)
Lemma extract_patches_Some (f : features) (p : Z) (a : ndarray (list float32)) :
  extract_patches f p = Some a →
  0 ≤ p ∧ well_shaped a ∧ shape0 a = size2 f ∧ shape1 a = size3 f
  ∧ descriptors_sized
      (Z.to_nat (2 * p + 1) * Z.to_nat (2 * p + 1) * length (channels f)) a.
Proof.
  unfold extract_patches. intros H.
  destruct (p <? 0) eqn:Ep; [done|]. apply Z.ltb_ge in Ep.
  destruct (Nat.eqb (size2 f) 0 || Nat.eqb (size3 f) 0) eqn:E0;
    [by rewrite orb_false_l, E0 in H|].
  rewrite orb_false_l, E0 in H.
  destruct (negb (all_finite f)); [done|].
  destruct (Nat.eqb (length (channels f)) 0); [done|].
  split; [done|]. split; [by eapply tabulate2M_well_shaped|].
  destruct (tabulate2M_shape _ _ _ _ H) as [S0 S1].
  split; [done|]. split; [done|].
  apply Forall_forall. intros r Hr. apply Forall_forall. intros c Hc.
  destruct (tabulate2M_cells _ _ _ _ _ _ H Hr Hc) as (y & x & _ & _ & Hcell).
  cbv beta in Hcell.
  destruct (mapM _ (list_prod _ _)) as [vs|] eqn:Evs; [simpl in Hcell|done].
  injection Hcell as <-. apply mapM_Some in Evs.
  rewrite (length_join_uniform (length (channels f))).
  - by rewrite <- (Forall2_length _ _ _ Evs), length_list_prod, !length_seqZ.
  - apply Forall_forall. intros v Hv.
    apply list_elem_of_lookup in Hv as [k Hk].
    destruct (Forall2_lookup_r _ _ _ _ _ Evs Hk) as ([dy dx] & _ & Hrow).
    apply mapM_Some in Hrow. by rewrite <- (Forall2_length _ _ _ Hrow).
Qed.

(** X9. Patch extraction on a feature map of [C >= 1] channels of [H] by [W]
    cells with finite values, with a padding [p >= 0], returns an array of
    [H] by [W] descriptors of [(2p+1)^2 * C] components each. With a negative
    padding, or a feature map without rows, columns or channels, it raises. *)
Theorem extract_patches_shape (f : features) (p : Z) :
  (features_shaped f → (0 < size2 f)%nat → (0 < size3 f)%nat → 0 ≤ p →
   channels f ≠ [] → all_finite f = true →
   ∃ a, extract_patches f p = Some a
        ∧ well_shaped a ∧ shape0 a = size2 f ∧ shape1 a = size3 f
        ∧ descriptors_sized
            (Z.to_nat (2 * p + 1) * Z.to_nat (2 * p + 1) * length (channels f)) a)
  ∧ (p < 0 ∨ size2 f = 0%nat ∨ size3 f = 0%nat ∨ channels f = [] →
     extract_patches f p = None).
Proof.
  split; [apply extract_patches_total|].
  intros H. unfold extract_patches.
  destruct H as [H|[H|[H|H]]].
  - replace (p <? 0) with true by (symmetry; apply Z.ltb_lt; lia). done.
  - rewrite H. simpl. by rewrite orb_true_r.
  - rewrite H. simpl. by rewrite orb_true_r.
  - rewrite H. simpl.
    destruct ((p <? 0) || Nat.eqb (size2 f) 0 || Nat.eqb (size3 f) 0); [done|].
    by destruct (negb (all_finite f)).
Qed.

(** X10. The layout of a descriptor: with the window offsets [dy], [dx] of
    [[0, 2p+1)] and the channel [c], the component [(dy * (2p+1) + dx) * C + c]
    of the descriptor of the cell [(y, x)] is the value of channel [c] at
    [(y + dy - p, x + dx - p)], clamped to the feature map. The centre of the
    window is the cell itself. *)
Theorem extract_patches_layout (f : features) (p : Z) (a : ndarray (list float32))
    (y x dy dx : Z) (c : nat) (ch : ndarray float32) :
  extract_patches f p = Some a →
  0 ≤ y < Z.of_nat (size2 f) → 0 ≤ x < Z.of_nat (size3 f) →
  0 ≤ dy < 2 * p + 1 → 0 ≤ dx < 2 * p + 1 →
  channels f !! c = Some ch →
  ∃ d, get2 a y x = Some d
       ∧ d !! ((Z.to_nat dy * Z.to_nat (2 * p + 1) + Z.to_nat dx)
               * length (channels f) + c)%nat
         = get2 ch (edge_clamp (size2 f) p (y + dy)) (edge_clamp (size3 f) p (x + dx))
       ∧ (dy = p → dx = p →
          edge_clamp (size2 f) p (y + dy) = y ∧ edge_clamp (size3 f) p (x + dx) = x).
Proof.
  unfold extract_patches. intros H Hy Hx Hdy Hdx Hch.
  destruct ((p <? 0) || Nat.eqb (size2 f) 0 || Nat.eqb (size3 f) 0); [done|].
  destruct (negb (all_finite f)); [done|].
  destruct (Nat.eqb (length (channels f)) 0); [done|].
  pose proof (get2_tabulate2M _ _ _ _ y x H Hy Hx) as Hcell.
  cbv beta in Hcell.
  destruct (mapM _ (list_prod _ _)) as [vs|] eqn:Evs; [simpl in Hcell|].
  2:{ exfalso. destruct (get2_in_range a y x) as [d Hd].
      - by eapply tabulate2M_well_shaped.
      - by destruct (tabulate2M_shape _ _ _ _ H) as [-> _].
      - by destruct (tabulate2M_shape _ _ _ _ H) as [_ ->].
      - rewrite Hd in Hcell. done. }
  exists (mjoin vs). split; [done|]. split; [|unfold edge_clamp; lia].
  assert (seqZ 0 (2 * p + 1) !! Z.to_nat dy = Some dy) as Ldy.
  { rewrite lookup_seqZ. lia. }
  assert (seqZ 0 (2 * p + 1) !! Z.to_nat dx = Some dx) as Ldx.
  { rewrite lookup_seqZ. lia. }
  pose proof (lookup_list_prod _ _ _ _ _ _ Ldy Ldx) as Lw.
  rewrite length_seqZ in Lw.
  pose proof (mapM_lookup _ _ _ _ _ Evs Lw) as Hrow. cbv beta iota in Hrow.
  assert (Forall (fun v : list float32 => length v = length (channels f)) vs) as Hall.
  { apply Forall_forall. intros v Hv.
    apply list_elem_of_lookup in Hv as [k Hk]. apply mapM_Some in Evs.
    destruct (Forall2_lookup_r _ _ _ _ _ Evs Hk) as ([dy' dx'] & _ & Hrow').
    apply mapM_Some in Hrow'. by rewrite <- (Forall2_length _ _ _ Hrow'). }
  destruct (vs !! _) as [v|] eqn:Ev in Hrow.
  2:{ exfalso. apply mapM_Some in Evs.
      destruct (Forall2_lookup_l _ _ _ _ _ Evs Lw) as (v & Hv & _). congruence. }
  symmetry in Hrow.
  rewrite (lookup_join_uniform _ _ _ _ _ Hall Ev)
    by (by eapply lookup_lt_Some).
  rewrite (mapM_lookup _ _ _ _ _ Hrow Hch). done.
Qed.

(** ** The buffers of a level *)

Lemma map_cells_well_shaped {A B} (f : A → B) (a : ndarray A) :
  well_shaped a → well_shaped (map_cells f a).
Proof.
  unfold well_shaped, map_cells. simpl. intros [Hl Hr].
  split; [by rewrite length_map|].
  apply Forall_forall. intros r Hr'. apply list_elem_of_In, in_map_iff in Hr'.
  destruct Hr' as (r0 & <- & Hr0%list_elem_of_In). rewrite length_map.
  rewrite Forall_forall in Hr. by apply Hr.
Qed.

Lemma normalize_patches_sized (d : nat) (a : ndarray (list float32)) :
  descriptors_sized d a → descriptors_sized d (normalize_patches a).
Proof.
  unfold descriptors_sized, normalize_patches, map_cells. simpl. intros H.
  apply Forall_forall. intros r Hr. apply list_elem_of_In, in_map_iff in Hr.
  destruct Hr as (r0 & <- & Hr0%list_elem_of_In).
  apply Forall_forall. intros v Hv. apply list_elem_of_In, in_map_iff in Hv.
  destruct Hv as (v0 & <- & Hv0%list_elem_of_In).
  unfold normalize_descriptor. rewrite length_fmap.
  rewrite Forall_forall in H. specialize (H r0 Hr0).
  rewrite Forall_forall in H. by apply H.
Qed.

Lemma tabulate2_cells {A} (h w : nat) (f : Z → Z → A) r c :
  r ∈ rows (tabulate2 h w f) → c ∈ r →
  ∃ y x, 0 ≤ y < Z.of_nat h ∧ 0 ≤ x < Z.of_nat w ∧ c = f y x.
Proof.
  unfold tabulate2. simpl. intros Hr Hc.
  apply list_elem_of_fmap in Hr as (y & -> & Hy%elem_of_py_range).
  apply list_elem_of_fmap in Hc as (x & -> & Hx%elem_of_py_range).
  eauto.
Qed.

Lemma identity_indices_within (h w : nat) :
  indices_within h w (identity_indices h w).
Proof.
  unfold indices_within, identity_indices.
  apply Forall_forall. intros r Hr. apply Forall_forall. intros c Hc.
  destruct (tabulate2_cells _ _ _ _ _ Hr Hc) as (y & x & Hy & Hx & ->). done.
Qed.

(** The buffer made of well-shaped patches is well formed. *)
Lemma Buffer_init_level_ok (f : features) (patches : ndarray (list float32))
    (ws : ndarray float32) (wt : float32) (rad p : Z) :
  features_shaped f → (0 < size2 f)%nat → (0 < size3 f)%nat → 0 ≤ p →
  well_shaped ws → shape0 ws = size2 f → shape1 ws = size3 f →
  well_shaped patches → shape0 patches = size2 f → shape1 patches = size3 f →
  descriptors_sized
    (Z.to_nat (2 * p + 1) * Z.to_nat (2 * p + 1) * length (channels f)) patches →
  level_ok (size2 f) (size3 f) (length (channels f)) p
           (Buffer_init f patches ws wt rad p)
  ∧ own_bounds (Buffer_init f patches ws wt rad p).
Proof.
  intros Hf Hh Hw Hp Ww W0 W1 Wp P0 P1 Dp.
  split; [|apply identity_indices_within].
  unfold level_ok, field_ok, field_shaped, Buffer_init. simpl.
  pose proof (tabulate2_well_shaped (size2 f) (size3 f) (fun y x : Z => (y, x))).
  pose proof (tabulate2_well_shaped (size2 f) (size3 f) (fun _ _ : Z => F32.zero)).
  pose proof (map_cells_well_shaped normalize_descriptor patches Wp).
  pose proof (normalize_patches_sized _ _ Dp).
  unfold identity_indices, zero_scores, normalize_patches in *.
  repeat split; try done.
  all: match goal with
       | H : well_shaped ?a |- length (rows ?a) = _ => apply H
       | H : well_shaped ?a |- Forall _ (rows ?a) => apply H
       end.
Qed.

Lemma extract_level_ok (f : features) (ws : ndarray float32) (wt : float32)
    (rad p : Z) :
  features_shaped f → (0 < size2 f)%nat → (0 < size3 f)%nat → 0 ≤ p →
  channels f ≠ [] → all_finite f = true →
  well_shaped ws → shape0 ws = size2 f → shape1 ws = size3 f →
  ∃ b, extract_level f ws wt rad p = Some b
       ∧ level_ok (size2 f) (size3 f) (length (channels f)) p b
       ∧ own_bounds b.
Proof.
  intros Hf Hh Hw Hp Hne Hfin Ww W0 W1. unfold extract_level.
  destruct (extract_patches_total f p) as (a & -> & Wa & A0 & A1 & Da); [done..|].
  simpl. eexists. split; [done|]. by apply Buffer_init_level_ok.
Qed.

(** X11. The buffer that [extract] makes of a feature map with cells,
    channels and finite values, with a padding [p >= 0] and weights of the
    shape of the map: its arrays all have the shape of the map and its
    descriptors [(2p+1)^2 * C] components; every cell holds its own
    coordinates, which lie within the field, and the score zero; and the
    reproduction patches are the original ones. *)
Theorem extract_level_well_formed (f : features) (ws : ndarray float32)
    (wt : float32) (rad p : Z) :
  features_shaped f → (0 < size2 f)%nat → (0 < size3 f)%nat → 0 ≤ p →
  channels f ≠ [] → all_finite f = true →
  well_shaped ws → shape0 ws = size2 f → shape1 ws = size3 f →
  ∃ b, extract_level f ws wt rad p = Some b
       ∧ level_ok (size2 f) (size3 f) (length (channels f)) p b
       ∧ own_bounds b
       ∧ (∀ y x, 0 ≤ y < Z.of_nat (size2 f) → 0 ≤ x < Z.of_nat (size3 f) →
                 get2 (indices b) y x = Some (y, x)
                 ∧ get2 (scores b) y x = Some F32.zero)
       ∧ patches_repro b = patches_orign b
       ∧ radius b = rad.
Proof.
  intros Hf Hh Hw Hp Hne Hfin Ww W0 W1.
  destruct (extract_level_ok f ws wt rad p) as (b & Hb & Hok & Hown); [done..|].
  exists b. split; [done|]. split; [done|]. split; [done|].
  unfold extract_level in Hb.
  destruct (extract_patches f p) as [a|]; [simpl in Hb|done].
  injection Hb as <-. simpl. split; [|done].
  intros y x Hy Hx. unfold identity_indices, zero_scores.
  by rewrite !get2_tabulate2.
Qed.

(** ** The buffers of a level through the matching and the merge *)


(** Seeding a level from the level above returns a buffer of the level. *)
Lemma merge_flow_level (h w c : nat) (p : Z) (this parent other this' : Buffer) :
  level_ok h w c p this → own_bounds parent →
  Z.of_nat (shape0 (indices parent)) ≤ 2 ^ 30 →
  Z.of_nat (shape1 (indices parent)) ≤ 2 ^ 30 →
  merge_flow this (Some parent) other = Some this' →
  level_ok h w c p this' ∧ own_bounds this'.
Proof.
  intros (((Wi & Hi0 & Hi1 & Ws & Hs0 & Hs1 & Wo & Ho0 & Ho1 & Wr & Hr0 & Hr1)
           & Do & Dr) & Ff & F2 & F3 & Fc & Ww & W0 & W1 & Fp & Hp & Hh & Hw)
         Hown B0 B1.
  unfold merge_flow. intros H.
  destruct (zoom2 _) as [zoomed|] eqn:Ez; [cbn [mbind option_bind] in H|done].
  case_decide as Hshape; [|done]. destruct Hshape as [E0 E1].
  cbn [features_orign with_indices weights padding] in H.
  destruct (warp_features _ _ _) as [warpd|] eqn:Ew;
    [cbn [mbind option_bind] in H|done].
  destruct (blend_features _ _ _) as [repro|] eqn:Eb;
    [cbn [mbind option_bind] in H|done].
  destruct (extract_patches _ _) as [patches|] eqn:Ee;
    [cbn [mbind option_bind] in H|done].
  injection H as <-.
  pose proof (tabulate2M_well_shaped _ _ _ _ Ez) as Wz.
  pose proof (zoom2_doubled_within _ _ Ez Hown B0 B1) as Hz.
  apply blend_features_channels in Eb as (Rc & R2 & R3).
  apply extract_patches_Some in Ee as (_ & Wpa & P0 & P1 & Dpa).
  pose proof (map_cells_well_shaped normalize_descriptor patches Wpa) as Wn.
  pose proof (normalize_patches_sized _ _ Dpa) as Dn.
  rewrite Rc, Fc, Fp in Dn. unfold normalize_patches in *.
  split; [|exact Hz].
  unfold level_ok, field_ok, field_shaped. simpl.
  repeat split; try done; try congruence.
  all: match goal with
       | H : well_shaped ?a |- length (rows ?a) = _ => apply H
       | H : well_shaped ?a |- Forall _ (rows ?a) => apply H
       end.
Qed.

Lemma level_ok_buffer_shaped (h w c : nat) (p : Z) (b : Buffer) :
  level_ok h w c p b → buffer_shaped b.
Proof.
  intros (((Wi & Hi0 & Hi1 & _ & _ & _ & _ & Ho0 & Ho1 & _) & _)
          & Ff & F2 & F3 & _).
  unfold buffer_shaped. repeat split; try done; try congruence; apply Wi.
Qed.

(** X12. A merge that returns leaves a buffer of the level: the field, the
    scores and the two patch banks have the shape of the level, the
    descriptors of the new reproduction patches have the size of the
    original ones, and the indices lie within the field; when there is a
    level above they also lie within the field of the other image. For the
    indices it suffices that those of the level above lie within its field,
    of at most [2^30] rows and columns. *)
Theorem merge_flow_keeps_level (h w c : nat) (p : Z) (this other : Buffer)
    (parent : option Buffer) (this' : Buffer) :
  level_ok h w c p this → own_bounds this →
  mutation_fits (Merge parent) →
  merge_flow this parent other = Some this' →
  level_ok h w c p this' ∧ own_bounds this'
  ∧ (is_Some parent → buffer_shaped other → other_bounds this' other).
Proof.
  intros Hl Hown Hfit Hm. destruct parent as [parent|].
  - destruct Hfit as (Hp & B0 & B1).
    destruct (merge_flow_level _ _ _ _ _ _ _ _ Hl Hp B0 B1 Hm) as [Hl' Hown'].
    split; [done|]. split; [done|]. intros _ Ho.
    apply level_ok_buffer_shaped in Hl.
    by destruct (merge_flow_other_bounds _ _ _ _ Hl Ho Hp B0 B1 Hm) as [? _].
  - simpl in Hm. injection Hm as <-. split; [done|]. split; [done|].
    by intros [? ?].
Qed.

(** ** The levels of the pyramid in turn *)





(** ** Fields of different shapes *)

(** A loop fails when one of its iterations fails in every state that the
    loop can be in. *)
Lemma for_each_fails {S A} (I : S → Prop) (l : list A) (body : A → S → option S)
    (a : A) :
  a ∈ l →
  (∀ b s s', I s → body b s = Some s' → I s') →
  (∀ s, I s → body a s = None) →
  ∀ s, I s → for_each l body s = None.
Proof.
  intros Ha Hkeep Hfail. induction l as [|b l IH]; intros s Hs.
  - by apply list_elem_of_In in Ha.
  - simpl. destruct (body b s) as [s'|] eqn:E; [simpl|done].
    apply list_elem_of_In in Ha. destruct Ha as [->|Ha].
    + rewrite Hfail in E; done.
    + apply IH; [by apply list_elem_of_In|by eapply Hkeep].
Qed.

Lemma get2_outside {A} (a : ndarray A) (y x : Z) :
  ¬ (- Z.of_nat (shape0 a) ≤ y < Z.of_nat (shape0 a))
  ∨ ¬ (- Z.of_nat (shape1 a) ≤ x < Z.of_nat (shape1 a)) →
  get2 a y x = None.
Proof.
  intros H. unfold get2, py_index.
  destruct ((0 <=? y) && (y <? Z.of_nat (shape0 a))) eqn:E1.
  - apply andb_true_iff in E1 as [?%Z.leb_le ?%Z.ltb_lt].
    cbn [mbind option_bind].
    destruct ((0 <=? x) && (x <? Z.of_nat (shape1 a))) eqn:E2.
    + apply andb_true_iff in E2 as [?%Z.leb_le ?%Z.ltb_lt]. lia.
    + destruct ((- Z.of_nat (shape1 a) <=? x) && (x <? 0)) eqn:E3; [|done].
      apply andb_true_iff in E3 as [?%Z.leb_le ?%Z.ltb_lt]. lia.
  - destruct ((- Z.of_nat (shape0 a) <=? y) && (y <? 0)) eqn:E4; [|done].
    apply andb_true_iff in E4 as [?%Z.leb_le ?%Z.ltb_lt].
    cbn [mbind option_bind].
    destruct ((0 <=? x) && (x <? Z.of_nat (shape1 a))) eqn:E2.
    + apply andb_true_iff in E2 as [?%Z.leb_le ?%Z.ltb_lt]. lia.
    + destruct ((- Z.of_nat (shape1 a) <=? x) && (x <? 0)) eqn:E3; [|done].
      apply andb_true_iff in E3 as [?%Z.leb_le ?%Z.ltb_lt]. lia.
Qed.

Lemma patches_score_outside (first second : Buffer) y x v u padding :
  ¬ (- Z.of_nat (shape0 (patches_orign second)) ≤ v
     < Z.of_nat (shape0 (patches_orign second)))
  ∨ ¬ (- Z.of_nat (shape1 (patches_orign second)) ≤ u
       < Z.of_nat (shape1 (patches_orign second))) →
  patches_score first y x second v u padding = None.
Proof.
  intros H. unfold patches_score. rewrite (get2_outside _ _ _ H).
  by destruct (get2 (patches_repro first) y x).
Qed.

(** X14. A field is matched against the patch banks of the opposing buffer
    at the indices it holds: when a cell of the field holds an index outside
    the opposing bank of original patches (a field larger than the opposing
    one, with the identity indices it is built with), the initialisation
    raises, and so does the matching of the level. *)
Theorem matching_against_smaller_bank_raises (first second : Buffer)
    (y x v u padding : Z) (g : rng) :
  0 ≤ y < Z.of_nat (shape0 (indices first)) →
  0 ≤ x < Z.of_nat (shape1 (indices first)) →
  get2 (indices first) y x = Some (v, u) →
  ¬ (- Z.of_nat (shape0 (patches_orign second)) ≤ v
     < Z.of_nat (shape0 (patches_orign second)))
  ∨ ¬ (- Z.of_nat (shape1 (patches_orign second)) ≤ u
       < Z.of_nat (shape1 (patches_orign second))) →
  patches_initialize first second padding = None
  ∧ compute_flow first second g = None.
Proof.
  intros Hy Hx Hvu Hout.
  assert (∀ p, patches_initialize first second p = None) as Hinit.
  { intros p. unfold patches_initialize.
    set (I := fun s : Buffer => indices s = indices first).
    assert (∀ y' x' s s', I s → initialize_cell second p y' x' s = Some s' → I s')
      as Hcell.
    { intros y' x' s s' Hs. unfold initialize_cell. intros Hc.
      destruct (get2 (indices s) y' x') as [[v' u']|]; [simpl in Hc|done].
      destruct (patches_score _ _ _ _ _ _ _) as [sc|]; [simpl in Hc|done].
      destruct (set2 _ _ _ _) as [arr|]; [simpl in Hc|done].
      by simplify_eq. }
    apply (for_each_fails I _ _ y); [by apply elem_of_py_range| | |done].
    - intros y' s s' Hs. apply (for_each_preserves I); [|done].
      intros x' s0 s0' _. apply Hcell.
    - intros s Hs.
      apply (for_each_fails I _ _ x); [by apply elem_of_py_range| | |done].
      + intros x' s0 s0'. apply Hcell.
      + intros s0 Hs0. unfold initialize_cell. rewrite Hs0, Hvu.
        cbn [mbind option_bind]. by rewrite patches_score_outside. }
  split; [apply Hinit|]. unfold compute_flow. by rewrite Hinit.
Qed.

(** ** The window of the local search *)

(** X15. With a positive radius, one repeat of the search at a cell whose
    index lies within the field leaves there an index whose coordinates are
    each within [[c - radius, c + radius)] of the coordinate [c] held before:
    the offsets are drawn half-open, so a coordinate never moves up by the
    full radius. The window is taken around the index the cell holds at that
    repeat, with the same radius at every repeat. *)
Theorem local_search_window (second first : Buffer) (rad padding y x v u : Z)
    (g : rng) (st' : Buffer * rng) :
  0 < rad → own_bounds first →
  0 ≤ y < Z.of_nat (shape0 (indices first)) →
  0 ≤ x < Z.of_nat (shape1 (indices first)) →
  get2 (indices first) y x = Some (v, u) →
  search_step second rad padding y x (first, g) = Some st' →
  ∃ v' u', get2 (indices st'.1) y x = Some (v', u')
           ∧ v - rad ≤ v' < v + rad ∧ u - rad ≤ u' < u + rad.
Proof.
  intros Hr Hown Hy Hx Hvu. unfold search_step. cbn [fst snd]. rewrite Hvu.
  destruct (index_in_own_bounds first y x v u Hown Hvu) as [Hv Hu].
  unfold search_candidate.
  replace (0 <? rad) with true by (symmetry; apply Z.ltb_lt; lia).
  cbn [mbind option_bind]. intros H.
  destruct (randint g (- rad) rad) as [[dv g1]|] eqn:E1;
    [cbn [mbind option_bind] in H|done].
  destruct (randint g1 (- rad) rad) as [[du g2]|] eqn:E2;
    [cbn [mbind option_bind] in H|done].
  apply randint_in_range in E1 as (Hdv & _), E2 as (Hdu & _).
  destruct (patches_score _ _ _ _ _ _ _) as [score|];
    [cbn [mbind option_bind] in H|done].
  destruct (accept_if_better _ _ _ _ _ _) as [first'|] eqn:Ea;
    [cbn [mbind option_bind] in H|done].
  injection H as <-. cbn [fst].
  apply accept_if_better_cases in Ea
    as [->|(cur & sc & ix & _ & _ & _ & Hix & ->)].
  - exists v, u. split; [done|lia].
  - eexists _, _. split; [exact (get2_set2_eq _ _ _ _ _ Hix)|]. lia.
Qed.

(** ** Initialising twice *)

Lemma set2_same {A} (a : ndarray A) (y x : Z) (v : A) :
  get2 a y x = Some v → set2 a y x v = Some a.
Proof.
  unfold get2, set2. intros H.
  destruct (py_index (shape0 a) y) as [j|]; [simpl in H |- *|done].
  destruct (py_index (shape1 a) x) as [i|]; [simpl in H |- *|done].
  destruct (rows a !! j) as [r|] eqn:Er; [simpl in H |- *|done].
  rewrite H. simpl. rewrite (list_insert_id r i v H), (list_insert_id _ j r Er).
  by destruct a.
Qed.

Lemma for_each_fixed {S A} (l : list A) (body : A → S → option S) (s : S) :
  (∀ a, a ∈ l → body a s = Some s) → for_each l body s = Some s.
Proof.
  induction l as [|a l IH]; intros H; [done|]. simpl.
  rewrite H by apply list_elem_of_here. simpl. apply IH.
  intros b Hb. apply H. by apply list_elem_of_further.
Qed.

(** X16. The initialisation is idempotent: run on the field that an
    initialisation against the same opposing buffer has returned, with any
    padding, it returns that field again. *)
Theorem patches_initialize_idempotent (first second first' : Buffer)
    (padding padding' : Z) :
  patches_initialize first second padding = Some first' →
  patches_initialize first' second padding' = Some first'.
Proof.
  intros H. apply patches_initialize_spec in H as ((_ & _ & S0 & S1 & _) & _ & Hc).
  unfold patches_initialize. rewrite S0, S1.
  apply for_each_fixed. intros y Hy%elem_of_py_range.
  apply for_each_fixed. intros x Hx%elem_of_py_range.
  destruct (Hc y x Hy Hx) as (s & v & u & Hs & Hvu & Hscore).
  unfold initialize_cell. rewrite Hvu. cbn [mbind option_bind].
  rewrite Hscore. cbn [mbind option_bind].
  rewrite (set2_same _ _ _ _ Hs). cbn [mbind option_bind].
  by destruct first'.
Qed.

End reductions.

(** * The properties at work

    The theorems above hold for every choice of the two reductions. The
    examples below are evaluated with one choice of them, accumulation from
    the left. *)

#[export] Existing Instance sequential_reductions.

(** Bounds of the indices of a concrete field. *)
Ltac prove_within :=
  unfold own_bounds, other_bounds, indices_within; simpl;
  repeat (first [apply Forall_nil_2 | apply Forall_cons_2]); simpl; lia.

(** Shapes of a concrete buffer. *)
Ltac prove_shaped :=
  unfold field_ok, bank_covers, field_shaped, well_shaped, descriptors_sized;
  simpl; repeat split; try lia;
  repeat (first [apply Forall_nil_2 | apply Forall_cons_2]); reflexivity.

Ltac prove_buffer_shaped :=
  unfold buffer_shaped, features_shaped, well_shaped; simpl;
  repeat (first [apply Forall_nil_2 | apply Forall_cons_2 | split]).

(** The two levels of the example pyramid, as [extract] builds them. *)
Lemma coarse_level_ok :
  ∃ b, level_example 2 2 = Some b ∧ level_ok 2 2 1 1 b ∧ own_bounds b.
Proof.
  apply (extract_level_ok (example_features 2 2)); try reflexivity; try done.
  - prove_buffer_shaped.
  - simpl; lia.
  - simpl; lia.
  - apply tabulate2_well_shaped.
Qed.

Lemma fine_level_ok :
  ∃ b, level_example 4 4 = Some b ∧ level_ok 4 4 1 1 b ∧ own_bounds b.
Proof.
  apply (extract_level_ok (example_features 4 4)); try reflexivity; try done.
  - prove_buffer_shaped.
  - simpl; lia.
  - simpl; lia.
  - apply tabulate2_well_shaped.
Qed.

Lemma patches_score_formula_witness :
  patches_score square_field 0 1 square_field 1 1 1
  = Some (score_formula (normalize_descriptor [F32.of_Z 1; F32.of_Z 1])
            (normalize_descriptor [F32.of_Z 1; F32.of_Z 1])
            (normalize_descriptor [F32.of_Z 2; F32.of_Z 1])
            (normalize_descriptor [F32.of_Z 2; F32.of_Z 1])).
Proof.
  apply (patches_score_formula square_field square_field 0 1 1 1 1);
    vm_compute; reflexivity.
Defined.

Lemma odd_iteration_search_times_witness :
  flow_iteration square_field 1 (square_field, example_rng)
  = patches_search square_field square_field 2 4 1 example_rng.
Proof.
  exact (proj1 (odd_iteration_search_times square_field 1
                  (square_field, example_rng) eq_refl)).
Defined.

(** C2, as the specification has it, fails: with the radius 4 an odd iteration
    searches with 2 repeats for each of the 4 cells (16 draws), where
    [max(4, 12) / 2 = 6] repeats would make 48 draws. *)
Lemma odd_iteration_repeats_not_half_of_max :
  radius square_field = 4
  ∧ search_times (radius square_field) = 2
  ∧ Z.max (radius square_field) 12 / 2 = 6
  ∧ (fun st : Buffer * rng => drawn st.2)
      <$> flow_iteration square_field 1 (square_field, example_rng) = Some 16%nat
  ∧ (fun st : Buffer * rng => drawn st.2)
      <$> patches_search square_field square_field
            (Z.max (radius square_field) 12 / 2) (radius square_field)
            (padding square_field) example_rng = Some 48%nat
  ∧ flow_iteration square_field 1 (square_field, example_rng)
    ≠ patches_search square_field square_field
        (Z.max (radius square_field) 12 / 2) (radius square_field)
        (padding square_field) example_rng.
Proof.
  assert ((fun st : Buffer * rng => drawn st.2)
            <$> flow_iteration square_field 1 (square_field, example_rng)
          = Some 16%nat) as H16 by (vm_compute; reflexivity).
  assert ((fun st : Buffer * rng => drawn st.2)
            <$> patches_search square_field square_field
                  (Z.max (radius square_field) 12 / 2) (radius square_field)
                  (padding square_field) example_rng
          = Some 48%nat) as H48 by (vm_compute; reflexivity).
  split; [reflexivity|]. split; [reflexivity|]. split; [reflexivity|].
  split; [exact H16|]. split; [exact H48|].
  intros E. rewrite E, H48 in H16. discriminate H16.
Qed.

Lemma stored_indices_stay_in_opposing_bounds_witness :
  let ms := [Merge None; Initialize 1; Propagate 0 1; Search 2 (-1) 1] in
  let st := (narrow_field, example_rng) in
  let st' := default st (run_mutations wide_field ms st) in
  other_bounds st'.1 wide_field ∧ own_bounds st'.1.
Proof.
  intros ms st st'.
  apply (stored_indices_stay_in_opposing_bounds wide_field ms st st').
  - repeat constructor.
  - prove_buffer_shaped.
  - prove_buffer_shaped.
  - prove_within.
  - right. apply Exists_cons_tl, Exists_cons_hd. exact I.
  - vm_compute; reflexivity.
Defined.

Lemma global_search_samples_own_extent_witness :
  (∀ g, ∃ v u g',
      search_candidate 2 2 (-1) (get2 (indices square_field) 1 0) g = Some (v, u, g')
      ∧ 0 ≤ v < 2 ∧ 0 ≤ u < 2
      ∧ v = entropy g (drawn g) mod 2 ∧ u = entropy g (S (drawn g)) mod 2)
  ∧ (fun e : Z * Z =>
       fst <$> search_candidate 2 2 (-1) (get2 (indices square_field) 1 0)
                 (two_draws e.1 e.2))
      <$> [(0, 0); (0, 1); (1, 0); (1, 1)]
    = [Some (0, 0); Some (0, 1); Some (1, 0); Some (1, 1)]
  ∧ NoDup [(0, 0); (0, 1); (1, 0); (1, 1)].
Proof.
  apply (global_search_samples_own_extent square_field (-1) 1 0); simpl; lia.
Defined.

(** C4, as the specification has it, fails when the two fields differ in
    shape. A field of one cell matched against a field of 1 by 2 cells only
    ever draws the candidate [(0, 0)], never the cell [(0, 1)] of the opposing
    field; a field of 1 by 2 cells matched against a field of one cell draws
    the candidate [(0, 1)], which the opposing field does not have, and the
    search raises. *)
Lemma global_search_not_over_opposing_extent :
  (shape0 (indices wide_field), shape1 (indices wide_field)) = (1%nat, 2%nat)
  ∧ (shape0 (indices narrow_field), shape1 (indices narrow_field)) = (1%nat, 1%nat)
  ∧ (∀ g, fst <$> search_candidate (shape0 (indices narrow_field))
                     (shape1 (indices narrow_field)) (-1)
                     (get2 (indices narrow_field) 0 0) g
          = Some (0, 0))
  ∧ fst <$> search_candidate (shape0 (indices wide_field))
              (shape1 (indices wide_field)) (-1)
              (get2 (indices wide_field) 0 0) (two_draws 0 1)
    = Some (0, 1)
  ∧ patches_search wide_field narrow_field 1 (-1) 1 (two_draws 0 1) = None.
Proof.
  split; [reflexivity|]. split; [reflexivity|]. split; [|split; reflexivity].
  intros g. rewrite search_candidate_global by (simpl; lia). simpl.
  by rewrite !Z.mod_1_r.
Qed.

Lemma zero_norm_descriptor_not_finite_witness :
  ∃ c, normalize_descriptor [F32.zero; S754_finite false 8388608 (-123)] !! 1%nat
       = Some c
       ∧ c = F32.div (S754_finite false 8388608 (-123))
               (patch_norm [F32.zero; S754_finite false 8388608 (-123)])
       ∧ (F32.is_zero (S754_finite false 8388608 (-123)) = true → c = F32.nan)
       ∧ (F32.is_nan c = true ∨ F32.is_inf c = true).
Proof.
  apply (proj2 (zero_norm_descriptor_not_finite (reductions := sequential_reductions)
                  [F32.zero; S754_finite false 8388608 (-123)] eq_refl) 1%nat).
  reflexivity.
Defined.

(** C5, as the specification has it, fails: the descriptor [(0, 0)] has the
    norm zero and is stored as [(NaN, NaN)], not as the zero vector, and the
    score of its cell is NaN. *)
Lemma zero_norm_descriptor_stored_as_nan :
  patch_norm [F32.zero; F32.zero] = F32.zero
  ∧ normalize_descriptor [F32.zero; F32.zero] = [F32.nan; F32.nan]
  ∧ get2 (patches_orign flat_field) 0 0 = Some [F32.nan; F32.nan]
  ∧ get2 (patches_orign flat_field) 0 0 ≠ Some [F32.zero; F32.zero]
  ∧ patches_score flat_field 0 0 flat_field 0 0 1 = Some F32.nan.
Proof. repeat split; try reflexivity. discriminate. Qed.

Lemma stored_scores_never_decrease_witness :
  let ms := [Propagate 0 1; Search 2 4 1; Propagate 1 1] in
  let st := (square_field, example_rng) in
  let st' := default st (run_mutations square_field ms st) in
  ∃ s', get2 (scores st'.1) 0 1 = Some s'
        ∧ (s' = F32.zero ∨ F32.ltb F32.zero s' = true)
        ∧ F32.ltb s' F32.zero = false.
Proof.
  intros ms st st'.
  apply (stored_scores_never_decrease square_field ms st st' 0 1 F32.zero).
  - repeat constructor.
  - vm_compute; reflexivity.
  - lia.
  - lia.
  - vm_compute; reflexivity.
Defined.

Lemma stored_score_is_score_of_stored_index_witness :
  let ms := [Propagate 0 1; Search 2 4 1; Propagate 1 1] in
  let first1 := default square_field (patches_initialize square_field square_field 1) in
  let st2 := default (first1, example_rng)
               (run_mutations square_field ms (first1, example_rng)) in
  ∃ s v u, get2 (scores st2.1) 1 0 = Some s
           ∧ get2 (indices st2.1) 1 0 = Some (v, u)
           ∧ patches_score st2.1 1 0 square_field v u 1 = Some s.
Proof.
  intros ms first1 st2.
  apply (stored_score_is_score_of_stored_index square_field square_field first1 1
           ms example_rng st2 1 0).
  - vm_compute; reflexivity.
  - repeat constructor.
  - vm_compute; reflexivity.
  - simpl; lia.
  - simpl; lia.
Defined.


Lemma merge_seeds_doubled_parent_cells_witness :
  let this' := default fine_field
                 (merge_flow fine_field (Some square_field) fine_field) in
  merge_flow fine_field (Some square_field) fine_field = Some this'
  ∧ get2 (indices this') 3 1 = Some (2 * (3 / 2), 2 * (1 / 2)).
Proof.
  intros this'.
  assert (merge_flow fine_field (Some square_field) fine_field = Some this') as Hm
    by (vm_compute; reflexivity).
  split; [exact Hm|].
  refine (proj2 (proj2 (merge_seeds_doubled_parent_cells fine_field fine_field)
                   square_field _ _ _) this' Hm 3 1 _ _).
  - simpl; lia.
  - simpl; lia.
  - intros j i Hj Hi. simpl in Hj, Hi.
    assert ((j = 0 ∨ j = 1) ∧ (i = 0 ∨ i = 1)) as [[-> | ->] [-> | ->]] by lia;
      reflexivity.
  - simpl; lia.
  - simpl; lia.
Defined.

Lemma index_changes_only_with_better_score_witness :
  let ms := [Propagate 0 1; Search 2 (-1) 1] in
  let st := (default flat_field (patches_initialize flat_field flat_field 1),
             example_rng) in
  let st' := default st (run_mutations flat_field ms st) in
  get2 (scores st'.1) 0 0 = Some F32.nan
  ∧ get2 (indices st'.1) 0 0 = get2 (indices st.1) 0 0.
Proof.
  intros ms st st'.
  refine (proj2 (proj2 (index_changes_only_with_better_score flat_field ms st st'
                          0 0 _ _ _ _)) _).
  - repeat constructor.
  - vm_compute; reflexivity.
  - lia.
  - lia.
  - vm_compute; reflexivity.
Defined.

Lemma patches_search_draws_witness :
  let st' := default (square_field, example_rng)
               (patches_search square_field square_field 3 4 1 example_rng) in
  drawn st'.2 = (0 + 2 * Z.to_nat 3 * 2 * 2)%nat.
Proof.
  intros st'.
  apply (patches_search_draws square_field square_field 3 4 1 example_rng st').
  vm_compute; reflexivity.
Defined.

Lemma search_without_repeats_is_skipped_witness :
  patches_search wide_field narrow_field 0 1 1 still_rng
    = Some (wide_field, still_rng)
  ∧ flow_iteration narrow_field 1 (wide_field, still_rng)
    = Some (wide_field, still_rng).
Proof.
  pose proof (search_without_repeats_is_skipped wide_field narrow_field 0 1 1 1
                still_rng ltac:(lia)) as [H1 H2].
  split; [exact H1|]. apply H2; reflexivity.
Defined.

Lemma matching_operations_return_witness :
  (∃ first', patches_initialize square_field fine_field 1 = Some first'
             ∧ field_ok 2 2 2 first' ∧ own_bounds first')
  ∧ (∃ first', patches_propagate square_field fine_field 0 1 = Some first'
               ∧ field_ok 2 2 2 first')
  ∧ (∃ st', patches_search square_field fine_field 2 4 1 example_rng = Some st'
            ∧ field_ok 2 2 2 st'.1).
Proof.
  destruct (matching_operations_return 2 2 2 square_field fine_field 0 2 4 1
              example_rng) as (H1 & H2 & H3).
  - prove_shaped.
  - prove_shaped.
  - split; [apply H1; prove_within|]. split; [exact H2|exact H3].
Defined.

Lemma compute_flow_result_witness :
  let st' := default (square_field, example_rng)
               (compute_flow square_field fine_field example_rng) in
  own_bounds st'.1
  ∧ cell_consistent fine_field st'.1 1 1
  ∧ drawn st'.2 = 256%nat.
Proof.
  intros st'.
  destruct (compute_flow_result square_field fine_field example_rng st')
    as (_ & Hown & Hcell & _ & Hdrawn).
  - vm_compute; reflexivity.
  - split; [apply Hown; prove_within|].
    split; [apply Hcell; simpl; lia|exact Hdrawn].
Defined.

Lemma compute_flow_reads_opposing_banks_witness :
  let st := default (fine_field, example_rng)
              (compute_flow fine_field fine_field still_rng) in
  compute_flow fine_field st.1 example_rng
  = compute_flow fine_field fine_field example_rng.
Proof.
  intros st.
  apply (proj2 (compute_flow_reads_opposing_banks fine_field fine_field fine_field
                  example_rng still_rng) st).
  vm_compute; reflexivity.
Defined.

Lemma merge_flow_upsamples_witness :
  let parent := default square_field
                  (fst <$> compute_flow square_field square_field example_rng) in
  let this' := default fine_field (merge_flow fine_field (Some parent) fine_field) in
  get2 (indices this') 3 1
  = (fun vu : Z * Z => (wrap_int32 (vu.1 * 2), wrap_int32 (vu.2 * 2)))
      <$> get2 (indices parent) (3 / 2) (1 / 2).
Proof.
  intros parent this'.
  refine (proj1 (proj2 (merge_flow_upsamples fine_field parent fine_field this' _))
            3 1 _ _).
  - vm_compute; reflexivity.
  - simpl; lia.
  - simpl; lia.
Defined.

Lemma extract_patches_shape_witness :
  ∃ a, extract_patches (example_features 2 3) 1 = Some a
       ∧ well_shaped a ∧ shape0 a = 2%nat ∧ shape1 a = 3%nat
       ∧ descriptors_sized 9 a.
Proof.
  apply (proj1 (extract_patches_shape (example_features 2 3) 1)).
  - prove_buffer_shaped.
  - simpl; lia.
  - simpl; lia.
  - lia.
  - discriminate.
  - reflexivity.
Defined.

Lemma extract_patches_layout_witness :
  let f := example_features 2 3 in
  let a := default (tabulate2 0 0 (fun _ _ => [])) (extract_patches f 1) in
  ∃ d, get2 a 1 2 = Some d ∧ d !! 4%nat = Some (F32.of_Z 4).
Proof.
  intros f a.
  destruct (extract_patches_layout f 1 a 1 2 1 1 0
              (tabulate2 2 3 (fun y x => F32.of_Z (y + x + 1))))
    as (d & Hd & Hc & _).
  - vm_compute; reflexivity.
  - simpl; lia.
  - simpl; lia.
  - lia.
  - lia.
  - reflexivity.
  - exists d. split; [exact Hd|]. etrans; [exact Hc|]. vm_compute; reflexivity.
Defined.

Lemma extract_level_well_formed_witness :
  ∃ b, level_example 2 3 = Some b
       ∧ level_ok 2 3 1 1 b
       ∧ own_bounds b
       ∧ (∀ y x, 0 ≤ y < 2 → 0 ≤ x < 3 →
                 get2 (indices b) y x = Some (y, x)
                 ∧ get2 (scores b) y x = Some F32.zero)
       ∧ patches_repro b = patches_orign b
       ∧ radius b = 4.
Proof.
  apply (extract_level_well_formed (example_features 2 3)
           (tabulate2 2 3 (fun _ _ => F32.half)) F32.one 4 1).
  - prove_buffer_shaped.
  - simpl; lia.
  - simpl; lia.
  - lia.
  - discriminate.
  - reflexivity.
  - apply tabulate2_well_shaped.
  - reflexivity.
  - reflexivity.
Defined.

Lemma merge_flow_keeps_level_witness :
  let this := default flat_field (level_example 4 4) in
  let parent := default flat_field (level_example 2 2) in
  let this' := default this (merge_flow this (Some parent) this) in
  level_ok 4 4 1 1 this' ∧ own_bounds this' ∧ other_bounds this' this.
Proof.
  intros this parent this'.
  destruct fine_level_ok as (b & Hb & Hok & Hown).
  destruct coarse_level_ok as (b' & Hb' & Hok' & Hown').
  assert (this = b) as Eb by (unfold this; by rewrite Hb).
  assert (parent = b') as Eb' by (unfold parent; by rewrite Hb').
  assert (mutation_fits (Merge (Some parent))) as Hfit.
  { rewrite Eb'. destruct Hok' as (((_ & Hi0 & Hi1 & _) & _) & _).
    simpl. rewrite Hi0, Hi1. split; [done|]. split; lia. }
  assert (merge_flow this (Some parent) this = Some this') as Hm
    by (vm_compute; reflexivity).
  destruct (merge_flow_keeps_level 4 4 1 1 this this (Some parent) this')
    as (H1 & H2 & H3); [by rewrite Eb|by rewrite Eb|done|done|].
  split; [exact H1|]. split; [exact H2|]. apply H3; [by eexists|].
  rewrite Eb. by eapply level_ok_buffer_shaped.
Defined.


Lemma matching_against_smaller_bank_raises_witness :
  patches_initialize wide_field narrow_field 1 = None
  ∧ compute_flow wide_field narrow_field example_rng = None.
Proof.
  apply (matching_against_smaller_bank_raises wide_field narrow_field 0 1 0 1).
  - simpl; lia.
  - simpl; lia.
  - reflexivity.
  - right. simpl. lia.
Defined.

Lemma local_search_window_witness :
  let st' := default (fine_field, example_rng)
               (search_step fine_field 1 1 2 2 (fine_field, example_rng)) in
  ∃ v' u', get2 (indices st'.1) 2 2 = Some (v', u')
           ∧ 2 - 1 ≤ v' < 2 + 1 ∧ 2 - 1 ≤ u' < 2 + 1.
Proof.
  intros st'.
  apply (local_search_window fine_field fine_field 1 1 2 2 2 2 example_rng st').
  - lia.
  - prove_within.
  - simpl; lia.
  - simpl; lia.
  - reflexivity.
  - vm_compute; reflexivity.
Defined.

Lemma patches_initialize_idempotent_witness :
  let first' := default square_field (patches_initialize square_field fine_field 1) in
  patches_initialize first' fine_field 2 = Some first'.
Proof.
  intros first'.
  apply (patches_initialize_idempotent square_field fine_field first' 1 2).
  vm_compute; reflexivity.
Defined.

Lemma stored_indices_stay_in_own_bounds_witness :
  let ms := [Merge None; Initialize 1; Propagate 0 1; Search 2 4 1] in
  let st := (square_field, example_rng) in
  let st' := default st (run_mutations square_field ms st) in
  run_mutations square_field ms st = Some st'
  ∧ own_bounds st'.1 ∧ other_bounds st'.1 square_field.
Proof.
  intros ms st st'.
  assert (run_mutations square_field ms st = Some st') as Hrun
    by (vm_compute; reflexivity).
  split; [exact Hrun|].
  assert (Forall mutation_fits ms) as Hms by (repeat constructor).
  assert (own_bounds st.1) as Hown by prove_within.
  destruct (stored_indices_stay_in_own_bounds square_field ms st st' Hms Hown Hrun)
    as [H1 H2].
  split; [exact H1|]. apply H2; reflexivity.
Defined.

